(** * Verification of the rubric scorer (scoring.py)

    A shallow embedding of [scoring.py] and the properties its specification
    states about it.

    - Part 1 models the operations on Python [str] values that the scorer
      uses.  A [str] is the sequence of its code points; the model covers the
      code points U+0000 to U+00FF, one [ascii] each.
    - Part 2 models Python [float] values: IEEE 754 binary64 numbers, as the
      rationals they denote together with the two infinities and NaN, every
      operation rounding its exact result to the nearest binary64 value
      (ties to even).  The sign of zero is not tracked: nothing in
      [scoring.py] observes it.
    - Part 3 models rubric rows ([pandas.Series] objects) and Part 4 the
      functions of [scoring.py], in the order of the source.
    - Part 5 states and proves the properties.
    - Part 6 proves further properties of the code, among them of the guard
      of [app.py] and of the clean-up of the table in [load_rubric].
    - Part 7 compares the rounding of Part 2 with the binary64 floats of the
      kernel. *)

From Stdlib Require Import Bool List ZArith QArith Qround Qpower Lia Lqa.
From Stdlib Require Import String Ascii DecimalString Eqdep_dec.
From Stdlib Require PrimFloat FloatOps SpecFloat.
Import ListNotations.

(* ================================================================== *)
(** * Part 1: Python strings *)
(* ================================================================== *)

Module PyStr.

Local Open Scope string_scope.

(** [c.isspace()] for one code point below 256: the characters that
    [str.strip], [str.split] and the regular expression [\s] treat as
    whitespace (TAB to CR, FS to US, SPACE, NEL and NBSP). *)
Definition isspace (c : ascii) : bool :=
  let n := nat_of_ascii c in
  ((9 <=? n) && (n <=? 13) || (28 <=? n) && (n <=? 32)
   || (n =? 133) || (n =? 160))%nat.

Definition space : ascii := " "%char.
Definition newline : ascii := "010"%char.
Definition comma : ascii := ","%char.

(** [s.lstrip()], [s.rstrip()] and [s.strip()]. *)
Fixpoint lstrip (s : string) : string :=
  match s with
  | EmptyString => EmptyString
  | String c s' => if isspace c then lstrip s' else s
  end.

Fixpoint rstrip (s : string) : string :=
  match s with
  | EmptyString => EmptyString
  | String c s' =>
      match rstrip s' with
      | EmptyString => if isspace c then EmptyString else String c EmptyString
      | r => String c r
      end
  end.

Definition strip (s : string) : string := rstrip (lstrip s).

(** [s.replace(a, b)] for single characters [a] and [b]. *)
Fixpoint replace_char (a b : ascii) (s : string) : string :=
  match s with
  | EmptyString => EmptyString
  | String c s' =>
      String (if Ascii.eqb c a then b else c) (replace_char a b s')
  end.

(** [re.sub(r"\s+", " ", s)]: every maximal run of whitespace becomes one
    space.  [in_run] tells that the previous character was whitespace, whose
    run has already been replaced. *)
Fixpoint sub_ws_runs (in_run : bool) (s : string) : string :=
  match s with
  | EmptyString => EmptyString
  | String c s' =>
      if isspace c
      then if in_run then sub_ws_runs true s'
           else String space (sub_ws_runs true s')
      else String c (sub_ws_runs false s')
  end.

(** [s.split()]: the maximal runs of non-whitespace characters.  [w] is the
    word being read. *)
Fixpoint split_ws_from (w : string) (s : string) : list string :=
  match s with
  | EmptyString => match w with EmptyString => [] | _ => [w] end
  | String c s' =>
      if isspace c
      then match w with
           | EmptyString => split_ws_from EmptyString s'
           | _ => w :: split_ws_from EmptyString s'
           end
      else split_ws_from (w ++ String c EmptyString) s'
  end.

Definition split_ws (s : string) : list string := split_ws_from EmptyString s.

(** [s.split(sep)] for a one-character separator: empty fields are kept. *)
Fixpoint split_on_from (sep : ascii) (w : string) (s : string) : list string :=
  match s with
  | EmptyString => [w]
  | String c s' =>
      if Ascii.eqb c sep
      then w :: split_on_from sep EmptyString s'
      else split_on_from sep (w ++ String c EmptyString) s'
  end.

Definition split_on (sep : ascii) (s : string) : list string :=
  split_on_from sep EmptyString s.

(** [s.lower()]: A-Z and the capital letters of Latin-1 (U+00C0 to U+00DE
    but for the multiplication sign U+00D7) move up by 32.  On the code
    points of the model [str.lower] works one character at a time.  Beyond
    U+00FF it does not (a capital sigma is lower-cased by its place in the
    word), so what is proved below with [lower] is proved of strings of code
    points up to U+00FF and says nothing of others. *)
Definition lower_char (c : ascii) : ascii :=
  let n := nat_of_ascii c in
  if ((65 <=? n) && (n <=? 90)
      || (192 <=? n) && (n <=? 222) && negb (n =? 215))%nat
  then ascii_of_nat (n + 32) else c.

Fixpoint lower (s : string) : string :=
  match s with
  | EmptyString => EmptyString
  | String c s' => String (lower_char c) (lower s')
  end.

(** [sub in s]: substring containment. *)
Fixpoint contains (sub s : string) : bool :=
  prefix sub s
  || match s with
     | EmptyString => false
     | String _ s' => contains sub s'
     end.

(** The truth value of a string: it is not empty. *)
Definition nonempty (s : string) : bool :=
  match s with EmptyString => false | _ => true end.

(** [str(n)] for an integer [n]. *)
Definition str_of_int (n : Z) : string := NilZero.string_of_int (Z.to_int n).

(** ** Strings in normal form

    [tidy p s] holds when [s] can follow a character that was whitespace
    ([p = true]) or was not ([p = false]) in a string whose only whitespace
    is single spaces between words. *)
Fixpoint tidy (p : bool) (s : string) : Prop :=
  match s with
  | EmptyString => p = false
  | String c s' =>
      if isspace c then c = space /\ p = false /\ tidy true s'
      else tidy false s'
  end.

Definition normalized (s : string) : Prop := s = EmptyString \/ tidy true s.

Lemma isspace_space : isspace space = true.
Proof. reflexivity. Qed.

Lemma isspace_newline : isspace newline = true.
Proof. reflexivity. Qed.

Lemma eqb_newline_isspace c : Ascii.eqb c newline = true -> isspace c = true.
Proof. intros H. apply Ascii.eqb_eq in H. subst c. reflexivity. Qed.

Lemma tidy_sub_ws_runs s : forall p, tidy p s -> sub_ws_runs p s = s.
Proof.
  induction s as [|c s IH]; intros p H; simpl in *; [reflexivity|].
  destruct (isspace c).
  - destruct H as (-> & -> & H). now rewrite (IH true H).
  - now rewrite (IH false H).
Qed.

Lemma tidy_replace_newline s : forall p, tidy p s -> replace_char newline space s = s.
Proof.
  induction s as [|c s IH]; intros p H; simpl in *; [reflexivity|].
  destruct (isspace c) eqn:E.
  - destruct H as (-> & -> & H). simpl. now rewrite (IH true H).
  - destruct (Ascii.eqb c newline) eqn:N.
    + apply eqb_newline_isspace in N. congruence.
    + now rewrite (IH false H).
Qed.

Lemma tidy_lstrip s : tidy true s -> lstrip s = s.
Proof.
  destruct s as [|c s]; simpl; [reflexivity|].
  destruct (isspace c); [intros (_ & H & _); discriminate | reflexivity].
Qed.

Lemma tidy_rstrip s : forall p, tidy p s -> rstrip s = s.
Proof.
  induction s as [|c s IH]; intros p H; simpl in *; [reflexivity|].
  destruct (isspace c) eqn:E.
  - destruct H as (_ & _ & H). rewrite (IH true H).
    destruct s; [discriminate H | reflexivity].
  - rewrite (IH false H). now destruct s.
Qed.

Lemma rstrip_idem s : rstrip (rstrip s) = rstrip s.
Proof.
  induction s as [|c s IH]; simpl; [reflexivity|].
  destruct (rstrip s) as [|d r] eqn:R.
  - destruct (isspace c) eqn:E; simpl; [reflexivity | now rewrite E].
  - change (rstrip (String c (String d r))) with
      (match rstrip (String d r) with
       | EmptyString => if isspace c then EmptyString else String c EmptyString
       | x => String c x
       end).
    now rewrite IH.
Qed.

(** What is left of a string whose trailing whitespace was stripped. *)
Lemma rstrip_fixed_cons c s :
  rstrip (String c s) = String c s ->
  rstrip s = s /\ (s = EmptyString -> isspace c = false).
Proof.
  simpl. destruct (rstrip s) as [|d r] eqn:R.
  - destruct (isspace c); [discriminate|]. intros H. injection H as <-. auto.
  - intros H. injection H as <-. split; [reflexivity | discriminate].
Qed.

Lemma sub_ws_runs_tidy s :
  forall p, rstrip s = s -> (s = EmptyString -> p = false) ->
            tidy p (sub_ws_runs p s).
Proof.
  induction s as [|c s IH]; intros p R N; [simpl; auto|].
  apply rstrip_fixed_cons in R. destruct R as [R E]. simpl.
  destruct (isspace c) eqn:C.
  - assert (T : tidy true (sub_ws_runs true s)).
    { apply IH; [exact R|]. intros ->. specialize (E eq_refl). discriminate. }
    destruct p; [exact T|]. simpl. auto.
  - simpl. rewrite C. apply IH; auto.
Qed.

Lemma rstrip_replace_char a b s :
  isspace a = true -> isspace b = true ->
  rstrip (replace_char a b s) = replace_char a b (rstrip s).
Proof.
  intros Ha Hb. induction s as [|c s IH]; simpl; [reflexivity|].
  rewrite IH. destruct (rstrip s) as [|d r]; simpl.
  - destruct (Ascii.eqb c a) eqn:E.
    + apply Ascii.eqb_eq in E. subst c. now rewrite Ha, Hb.
    + destruct (isspace c); simpl; [reflexivity | now rewrite E].
  - reflexivity.
Qed.

Lemma lstrip_head s :
  lstrip s = EmptyString \/
  exists c r, lstrip s = String c r /\ isspace c = false.
Proof.
  induction s as [|c s IH]; simpl; [now left|].
  destruct (isspace c) eqn:E; [exact IH | right; eauto].
Qed.

Lemma rstrip_head c s :
  isspace c = false -> exists r, rstrip (String c s) = String c r.
Proof.
  intros E. simpl. rewrite E. destruct (rstrip s); eauto.
Qed.

Lemma strip_head s :
  strip s = EmptyString \/
  exists c r, strip s = String c r /\ isspace c = false.
Proof.
  unfold strip. destruct (lstrip_head s) as [->|(c & r & -> & E)]; [now left|].
  right. destruct (rstrip_head c r E) as [r' ->]. eauto.
Qed.

End PyStr.

(* ================================================================== *)
(** * Part 2: Python floats *)
(* ================================================================== *)

Module PyFloat.

Local Open Scope Q_scope.

(** ** Rounding a rational to binary64 *)

Definition pow2 (e : Z) : Q := 2 ^ e.

(** The nearest integer, ties to the even one. *)
Definition rne (x : Q) : Z :=
  let f := Qfloor x in
  match Qcompare (x - inject_Z f) (1 # 2) with
  | Lt => f
  | Gt => (f + 1)%Z
  | Eq => if Z.even f then f else (f + 1)%Z
  end.

(** The binade of a positive rational: [2^(mag a - 1) <= a < 2^(mag a)]. *)
Definition mag (a : Q) : Z :=
  let k := (Z.log2 (Qnum a) - Z.log2 (Zpos (Qden a)))%Z in
  if Qle_bool (pow2 k) a then (k + 1)%Z else k.

(** The exponent of the last mantissa bit of a binary64 number in binade
    [k]: 53 bits of precision, and no exponent below that of the subnormal
    numbers. *)
Definition fexp (k : Z) : Z := Z.max (k - 53) (-1074).

(** Rounding to the nearest multiple of [2^e]. *)
Definition rnd_at (e : Z) (x : Q) : Q := inject_Z (rne (x / pow2 e)) * pow2 e.

Definition round_pos (a : Q) : Q := rnd_at (fexp (mag a)) a.

(** The values of binary64: the rationals (those on the grid; see
    [is_float]), the two infinities and NaN. *)
Inductive xq : Type := Fin (q : Q) | PInf | NInf | NaN.

(** Round to nearest, ties to even; a result of magnitude [2^1024] or more
    overflows to an infinity. *)
Definition rnd (q : Q) : xq :=
  match Qcompare q 0 with
  | Eq => Fin 0
  | Gt => let r := round_pos q in
          if Qle_bool (pow2 1024) r then PInf else Fin (Qred r)
  | Lt => let r := round_pos (- q) in
          if Qle_bool (pow2 1024) r then NInf else Fin (Qred (- r))
  end.

Lemma pow2_pos e : 0 < pow2 e.
Proof. apply Qpower_0_lt. reflexivity. Qed.

Lemma pow2_add a b : pow2 (a + b) == pow2 a * pow2 b.
Proof. apply Qpower_plus. discriminate. Qed.

Lemma pow2_le a b : (a <= b)%Z -> pow2 a <= pow2 b.
Proof. intros H. apply Qpower_le_compat_l; [exact H | discriminate]. Qed.

Lemma pow2_lt a b : (a < b)%Z -> pow2 a < pow2 b.
Proof. intros H. apply Qpower_lt_compat_l; [exact H | reflexivity]. Qed.

Lemma pow2_Z e : (0 <= e)%Z -> pow2 e == inject_Z (2 ^ e).
Proof. intros H. unfold pow2. now rewrite Zpower_Qpower. Qed.

Lemma pow2_succ e : pow2 (e + 1) == 2 * pow2 e.
Proof. rewrite pow2_add. change (pow2 1) with 2. ring. Qed.

Lemma pow2_le_inv a b : pow2 a <= pow2 b -> (a <= b)%Z.
Proof. intros H. apply Qpower_le_compat_l_inv in H; [exact H | reflexivity]. Qed.

Lemma pow2_lt_inv a b : pow2 a < pow2 b -> (a < b)%Z.
Proof. intros H. apply Qpower_lt_compat_l_inv in H; [exact H | reflexivity]. Qed.

#[global] Instance rne_comp : Proper (Qeq ==> eq) rne.
Proof.
  intros x y H. unfold rne. rewrite (Qfloor_comp _ _ H).
  now rewrite H.
Qed.

Lemma rne_floor x : (Qfloor x <= rne x <= Qfloor x + 1)%Z.
Proof.
  unfold rne. destruct (Qcompare _ _); [destruct (Z.even _)| |]; lia.
Qed.

Lemma rne_Z z : rne (inject_Z z) = z.
Proof.
  unfold rne. rewrite Qfloor_Z.
  assert (H : inject_Z z - inject_Z z == 0) by ring.
  rewrite H. reflexivity.
Qed.

Lemma Qfloor_bounds x : inject_Z (Qfloor x) <= x < inject_Z (Qfloor x) + 1.
Proof.
  split; [apply Qfloor_le|].
  generalize (Qlt_floor x). rewrite inject_Z_plus. tauto.
Qed.

Lemma rne_mono x y : x <= y -> (rne x <= rne y)%Z.
Proof.
  intros H. pose proof (Qfloor_resp_le _ _ H) as Hf.
  destruct (Z.eq_dec (Qfloor x) (Qfloor y)) as [E|NE].
  - unfold rne. rewrite <- E.
    destruct (Qcompare_spec (x - inject_Z (Qfloor x)) (1 # 2)) as [Hx|Hx|Hx];
    destruct (Qcompare_spec (y - inject_Z (Qfloor x)) (1 # 2)) as [Hy|Hy|Hy];
    try destruct (Z.even (Qfloor x)); try lia; exfalso; lra.
  - pose proof (rne_floor x). pose proof (rne_floor y). lia.
Qed.

Lemma Qnum_den_pos a : 0 < a -> (0 < Qnum a)%Z.
Proof. destruct a as [n d]. unfold Qlt. simpl. lia. Qed.

Lemma mag_spec a : 0 < a -> pow2 (mag a - 1) <= a /\ a < pow2 (mag a).
Proof.
  intros Ha. pose proof (Qnum_den_pos a Ha) as Hn.
  destruct a as [n d]. simpl in Hn. unfold mag. simpl Qnum. simpl Qden.
  pose proof (Z.log2_spec n Hn) as [Hn1 Hn2].
  pose proof (Z.log2_spec (Zpos d) (Pos2Z.is_pos d)) as [Hd1 Hd2].
  pose proof (Z.log2_nonneg n) as Ln. pose proof (Z.log2_nonneg (Zpos d)) as Ld.
  set (ln := Z.log2 n) in *. set (ld := Z.log2 (Zpos d)) in *.
  assert (Hq : n # d == inject_Z n / inject_Z (Zpos d)) by (rewrite Qmake_Qdiv; reflexivity).
  assert (Dpos : 0 < inject_Z (Zpos d)) by (unfold Qlt; simpl; lia).
  assert (B1 : pow2 ln <= inject_Z n).
  { rewrite pow2_Z by lia. rewrite <- Zle_Qle. exact Hn1. }
  assert (B2 : inject_Z n < pow2 (ln + 1)).
  { rewrite pow2_Z by lia. rewrite <- Zlt_Qlt. replace (ln + 1)%Z with (Z.succ ln) by lia. exact Hn2. }
  assert (B3 : pow2 ld <= inject_Z (Zpos d)).
  { rewrite pow2_Z by lia. rewrite <- Zle_Qle. exact Hd1. }
  assert (B4 : inject_Z (Zpos d) < pow2 (ld + 1)).
  { rewrite pow2_Z by lia. rewrite <- Zlt_Qlt. replace (ld + 1)%Z with (Z.succ ld) by lia. exact Hd2. }
  assert (L : pow2 (ln - ld - 1) * inject_Z (Zpos d) < inject_Z n).
  { apply Qlt_le_trans with (pow2 (ln - ld - 1) * pow2 (ld + 1)).
    - apply Qmult_lt_l; [apply pow2_pos | exact B4].
    - rewrite <- pow2_add. replace (ln - ld - 1 + (ld + 1))%Z with ln by lia. exact B1. }
  assert (U : inject_Z n < pow2 (ln - ld + 1) * inject_Z (Zpos d)).
  { apply Qlt_le_trans with (pow2 (ln - ld + 1) * pow2 ld).
    - rewrite <- pow2_add. replace (ln - ld + 1 + ld)%Z with (ln + 1)%Z by lia. exact B2.
    - apply Qmult_le_l; [apply pow2_pos | exact B3]. }
  assert (Hdiv : forall c, c * inject_Z (Zpos d) <= inject_Z n <-> c <= n # d).
  { intros c. rewrite Hq. split; intros H.
    - apply Qle_shift_div_l; assumption.
    - apply Qmult_le_r with (z := / inject_Z (Zpos d)); [apply Qinv_lt_0_compat; exact Dpos|].
      rewrite <- Qmult_assoc, Qmult_inv_r, Qmult_1_r by (intro E; rewrite E in Dpos; discriminate). exact H. }
  assert (Hdiv' : forall c, inject_Z n < c * inject_Z (Zpos d) <-> n # d < c).
  { intros c. rewrite Hq. split; intros H.
    - apply Qlt_shift_div_r; assumption.
    - apply Qmult_lt_r with (z := / inject_Z (Zpos d)); [apply Qinv_lt_0_compat; exact Dpos|].
      rewrite <- Qmult_assoc, Qmult_inv_r, Qmult_1_r by (intro E; rewrite E in Dpos; discriminate). exact H. }
  destruct (Qle_bool (pow2 (ln - ld)) (n # d)) eqn:T.
  - apply Qle_bool_iff in T. replace (ln - ld + 1 - 1)%Z with (ln - ld)%Z by lia.
    split; [exact T|]. apply Hdiv'. exact U.
  - assert (T' : n # d < pow2 (ln - ld)).
    { apply Qnot_le_lt. intro H. apply Qle_bool_iff in H. congruence. }
    split; [|exact T']. apply Qlt_le_weak. rewrite Hq.
    apply Qlt_shift_div_l; [exact Dpos | exact L].
Qed.

Lemma mag_unique a k : 0 < a -> pow2 (k - 1) <= a -> a < pow2 k -> mag a = k.
Proof.
  intros Ha H1 H2. destruct (mag_spec a Ha) as [M1 M2].
  assert (A : (k - 1 < mag a)%Z) by (apply pow2_lt_inv; lra).
  assert (B : (mag a - 1 < k)%Z) by (apply pow2_lt_inv; lra).
  lia.
Qed.

Lemma mag_mono a b : 0 < a -> a <= b -> (mag a <= mag b)%Z.
Proof.
  intros Ha Hab. destruct (mag_spec a Ha) as [A1 A2].
  destruct (mag_spec b) as [B1 B2]; [lra|].
  assert (A : (mag a - 1 < mag b)%Z) by (apply pow2_lt_inv; lra).
  lia.
Qed.

Lemma mag_comp a b : 0 < a -> a == b -> mag a = mag b.
Proof.
  intros Ha E. destruct (mag_spec a Ha) as [A1 A2].
  symmetry. apply mag_unique; lra.
Qed.

Lemma mag_pow2 k : mag (pow2 k) = (k + 1)%Z.
Proof.
  apply mag_unique; [apply pow2_pos | |].
  - replace (k + 1 - 1)%Z with k by lia. lra.
  - apply pow2_lt. lia.
Qed.

Lemma fexp_mono j k : (j <= k)%Z -> (fexp j <= fexp k)%Z.
Proof. unfold fexp. lia. Qed.

#[global] Instance rnd_at_comp e : Proper (Qeq ==> Qeq) (rnd_at e).
Proof. intros x y H. unfold rnd_at. now rewrite H. Qed.

Lemma pow2_nz e : ~ pow2 e == 0.
Proof. pose proof (pow2_pos e). lra. Qed.

Lemma rnd_at_mono e x y : x <= y -> rnd_at e x <= rnd_at e y.
Proof.
  intros H. unfold rnd_at. apply Qmult_le_r; [apply pow2_pos|].
  rewrite <- Zle_Qle. apply rne_mono.
  apply Qmult_le_r; [apply Qinv_lt_0_compat, pow2_pos | exact H].
Qed.

Lemma rnd_at_grid e z : rnd_at e (inject_Z z * pow2 e) == inject_Z z * pow2 e.
Proof.
  unfold rnd_at. rewrite Qdiv_mult_l by apply pow2_nz. now rewrite rne_Z.
Qed.

Lemma pow2_grid e t : (e <= t)%Z -> pow2 t == inject_Z (2 ^ (t - e)) * pow2 e.
Proof.
  intros H. rewrite <- pow2_Z by lia. rewrite <- pow2_add.
  now replace (t - e + e)%Z with t by lia.
Qed.

Lemma rnd_at_le_pow2 e t x : (e <= t)%Z -> x <= pow2 t -> rnd_at e x <= pow2 t.
Proof.
  intros He Hx. rewrite (pow2_grid e t He). rewrite <- rnd_at_grid.
  apply rnd_at_mono. now rewrite <- pow2_grid.
Qed.

Lemma rnd_at_ge_pow2 e t x : (e <= t)%Z -> pow2 t <= x -> pow2 t <= rnd_at e x.
Proof.
  intros He Hx. rewrite (pow2_grid e t He). rewrite <- rnd_at_grid.
  apply rnd_at_mono. now rewrite <- pow2_grid.
Qed.

Lemma rnd_at_nonneg e x : 0 <= x -> 0 <= rnd_at e x.
Proof.
  intros H. assert (E : 0 == inject_Z 0 * pow2 e) by ring.
  rewrite E at 1. rewrite <- rnd_at_grid. apply rnd_at_mono. now rewrite <- E.
Qed.

Lemma rnd_at_small e x : 0 <= x -> x < pow2 (e - 1) -> rnd_at e x == 0.
Proof.
  intros H0 H. unfold rnd_at.
  assert (Hd : 0 <= x / pow2 e < 1 # 2).
  { split.
    - apply Qle_shift_div_l; [apply pow2_pos | lra].
    - apply Qlt_shift_div_r; [apply pow2_pos|].
      assert (P : pow2 e == 2 * pow2 (e - 1)).
      { rewrite <- pow2_succ. now replace (e - 1 + 1)%Z with e by lia. }
      lra. }
  assert (F : Qfloor (x / pow2 e) = 0%Z).
  { pose proof (Qfloor_bounds (x / pow2 e)) as [F1 F2].
    assert (A : (Qfloor (x / pow2 e) < 1)%Z)
      by (rewrite Zlt_Qlt; change (inject_Z 1) with 1; lra).
    assert (B : (-1 < Qfloor (x / pow2 e))%Z)
      by (rewrite Zlt_Qlt; change (inject_Z (-1)) with (-1 # 1); lra).
    lia. }
  unfold rne. rewrite F. change (inject_Z 0) with 0.
  set (d := x / pow2 e) in *. clearbody d.
  destruct (Qcompare_spec (d - 0) (1 # 2)) as [C|C|C];
    simpl; try ring; exfalso; lra.
Qed.

Lemma round_pos_mono a b : 0 < a -> a <= b -> round_pos a <= round_pos b.
Proof.
  intros Ha Hab. assert (Hb : 0 < b) by lra.
  pose proof (mag_mono a b Ha Hab) as Hk.
  pose proof (fexp_mono _ _ Hk) as He.
  destruct (mag_spec a Ha) as [A1 A2]. destruct (mag_spec b Hb) as [B1 B2].
  unfold round_pos.
  destruct (Z.eq_dec (fexp (mag a)) (fexp (mag b))) as [E|NE].
  - rewrite E. now apply rnd_at_mono.
  - assert (Hlt : (mag a < mag b)%Z) by (unfold fexp in *; lia).
    apply Qle_trans with (pow2 (mag b - 1)).
    + destruct (Z_le_gt_dec (fexp (mag a)) (mag b - 1)).
      * apply rnd_at_le_pow2; [assumption|].
        apply Qle_trans with (pow2 (mag a)); [lra | apply pow2_le; lia].
      * rewrite rnd_at_small; [apply Qlt_le_weak, pow2_pos | lra |].
        apply Qlt_le_trans with (pow2 (mag a)); [exact A2 | apply pow2_le; lia].
    + apply rnd_at_ge_pow2; [unfold fexp in *; lia | exact B1].
Qed.

Lemma round_pos_nonneg a : 0 < a -> 0 <= round_pos a.
Proof. intros H. apply rnd_at_nonneg. lra. Qed.

Lemma round_pos_comp a b : 0 < a -> a == b -> round_pos a == round_pos b.
Proof.
  intros Ha E. unfold round_pos. rewrite <- (mag_comp a b Ha E).
  apply (rnd_at_comp _ _ _ E).
Qed.

(** A positive value on the grid of its own binade is left unchanged. *)
Lemma round_pos_grid x z : 0 < x -> x == inject_Z z * pow2 (fexp (mag x)) -> round_pos x == x.
Proof.
  intros Hx E. unfold round_pos.
  rewrite E at 2. rewrite rnd_at_grid. now rewrite <- E.
Qed.

Lemma round_pos_idem a : 0 < a -> 0 < round_pos a -> round_pos (round_pos a) == round_pos a.
Proof.
  intros Ha Hr. destruct (mag_spec a Ha) as [A1 A2].
  set (e := fexp (mag a)). set (r := round_pos a) in *.
  assert (Er : r == inject_Z (rne (a / pow2 e)) * pow2 e) by reflexivity.
  destruct (Z_le_gt_dec (fexp (mag r)) e) as [L|G].
  - apply round_pos_grid with (z := (rne (a / pow2 e) * 2 ^ (e - fexp (mag r)))%Z); [exact Hr|].
    rewrite inject_Z_mult, <- Qmult_assoc, <- pow2_grid by lia. exact Er.
  - destruct (mag_spec r Hr) as [R1 R2].
    assert (Hka : (e <= mag a)%Z).
    { destruct (Z_le_gt_dec e (mag a)); [assumption|]. exfalso.
      assert (Z0 : r == 0).
      { apply rnd_at_small; [lra|]. apply Qlt_le_trans with (pow2 (mag a)); [exact A2 | apply pow2_le; lia]. }
      lra. }
    assert (U : r <= pow2 (mag a)) by (apply rnd_at_le_pow2; [exact Hka | lra]).
    assert (K : (mag a < mag r)%Z).
    { destruct (Z_le_gt_dec (mag r) (mag a)) as [C|C]; [|lia].
      apply fexp_mono in C. unfold e in G. lia. }
    assert (Eq2 : r == pow2 (mag a)).
    { apply Qle_antisym; [exact U|]. apply Qle_trans with (pow2 (mag r - 1)); [apply pow2_le; lia | exact R1]. }
    assert (Km : mag r = (mag a + 1)%Z) by (rewrite (mag_comp r (pow2 (mag a)) Hr Eq2); apply mag_pow2).
    apply round_pos_grid with (z := (2 ^ (mag a - fexp (mag r)))%Z); [exact Hr|].
    rewrite <- pow2_grid; [exact Eq2|]. rewrite Km. unfold fexp, e in *. unfold fexp in Hka. lia.
Qed.


(** ** The order of binary64 values *)

(** [x <= y] on values; NaN compares with nothing. *)
Definition xle (x y : xq) : Prop :=
  match x, y with
  | NaN, _ | _, NaN => False
  | NInf, _ | _, PInf => True
  | Fin a, Fin b => a <= b
  | _, _ => False
  end.

Definition Qltb (a b : Q) : bool := negb (Qle_bool b a).

(** Python's [x < y], [x <= y] and [x == y], on exact values. *)
Definition xltb (x y : xq) : bool :=
  match x, y with
  | NaN, _ | _, NaN => false
  | Fin a, Fin b => Qltb a b
  | NInf, NInf | PInf, _ | _, NInf => false
  | NInf, _ | _, PInf => true
  end.

Definition xleb (x y : xq) : bool :=
  match x, y with
  | NaN, _ | _, NaN => false
  | Fin a, Fin b => Qle_bool a b
  | NInf, _ | _, PInf => true
  | _, _ => false
  end.

Definition xeqb (x y : xq) : bool :=
  match x, y with
  | Fin a, Fin b => Qeq_bool a b
  | PInf, PInf | NInf, NInf => true
  | _, _ => false
  end.

Lemma Qltb_lt a b : Qltb a b = true <-> a < b.
Proof.
  unfold Qltb. rewrite negb_true_iff. split; intros H.
  - apply Qnot_le_lt. intros C. apply Qle_bool_iff in C. congruence.
  - destruct (Qle_bool b a) eqn:E; [|reflexivity].
    apply Qle_bool_iff in E. lra.
Qed.

Lemma Qltb_ge a b : Qltb a b = false <-> b <= a.
Proof.
  unfold Qltb. rewrite negb_false_iff. apply Qle_bool_iff.
Qed.

(** ** Rounding is monotone and fixes what it returns *)

Lemma Qle_bool_false a b : Qle_bool a b = false <-> b < a.
Proof.
  split; intros H.
  - apply Qnot_le_lt. intros C. apply Qle_bool_iff in C. congruence.
  - destruct (Qle_bool a b) eqn:E; [|reflexivity]. apply Qle_bool_iff in E. lra.
Qed.

Lemma Qle_bool_eq c a b : a == b -> Qle_bool c a = Qle_bool c b.
Proof.
  intros E. destruct (Qle_bool c b) eqn:B.
  - apply Qle_bool_iff. apply Qle_bool_iff in B. lra.
  - apply Qle_bool_false. apply Qle_bool_false in B. lra.
Qed.

Lemma rnd_pos q : 0 < q ->
  rnd q = if Qle_bool (pow2 1024) (round_pos q) then PInf
          else Fin (Qred (round_pos q)).
Proof.
  intros H. unfold rnd. destruct (Qcompare_spec q 0); [lra | lra | reflexivity].
Qed.

Lemma rnd_neg q : q < 0 ->
  rnd q = if Qle_bool (pow2 1024) (round_pos (- q)) then NInf
          else Fin (Qred (- round_pos (- q))).
Proof.
  intros H. unfold rnd. destruct (Qcompare_spec q 0); [lra | reflexivity | lra].
Qed.

Lemma rnd_zero q : q == 0 -> rnd q = Fin 0.
Proof.
  intros H. unfold rnd. destruct (Qcompare_spec q 0); [reflexivity | lra | lra].
Qed.

Lemma rnd_mono a b : a <= b -> xle (rnd a) (rnd b).
Proof.
  intros Hab.
  destruct (Q_dec a 0) as [[Ha|Ha]|Ha]; destruct (Q_dec b 0) as [[Hb|Hb]|Hb];
    try (exfalso; lra).
  - rewrite (rnd_neg a Ha), (rnd_neg b Hb).
    assert (M : round_pos (- b) <= round_pos (- a)) by (apply round_pos_mono; lra).
    destruct (Qle_bool (pow2 1024) (round_pos (- a))) eqn:Ea;
      [destruct (Qle_bool (pow2 1024) (round_pos (- b))); exact I|].
    apply Qle_bool_false in Ea.
    assert (Eb : Qle_bool (pow2 1024) (round_pos (- b)) = false) by (apply Qle_bool_false; lra).
    rewrite Eb. unfold xle. rewrite !Qred_correct. lra.
  - rewrite (rnd_neg a Ha), (rnd_pos b Hb).
    pose proof (round_pos_nonneg (- a)). pose proof (round_pos_nonneg b).
    destruct (Qle_bool _ (round_pos (- a))), (Qle_bool _ (round_pos b)); unfold xle; try exact I.
    rewrite !Qred_correct. lra.
  - rewrite (rnd_neg a Ha), (rnd_zero b Hb).
    pose proof (round_pos_nonneg (- a)).
    destruct (Qle_bool _ _); unfold xle; try exact I. rewrite Qred_correct. lra.
  - rewrite (rnd_pos a Ha), (rnd_pos b Hb).
    assert (M : round_pos a <= round_pos b) by (apply round_pos_mono; lra).
    destruct (Qle_bool (pow2 1024) (round_pos b)) eqn:Eb;
      [destruct (Qle_bool (pow2 1024) (round_pos a)); exact I|].
    apply Qle_bool_false in Eb.
    assert (Ea : Qle_bool (pow2 1024) (round_pos a) = false) by (apply Qle_bool_false; lra).
    rewrite Ea. unfold xle. rewrite !Qred_correct. lra.
  - rewrite (rnd_zero a Ha), (rnd_pos b Hb).
    pose proof (round_pos_nonneg b).
    destruct (Qle_bool _ _); unfold xle; try exact I. rewrite Qred_correct. lra.
  - rewrite (rnd_zero a Ha), (rnd_zero b Hb). unfold xle. lra.
Qed.

Lemma rnd_comp a b : a == b -> rnd a = rnd b.
Proof.
  intros E.
  destruct (Q_dec a 0) as [[Ha|Ha]|Ha].
  - rewrite (rnd_neg a Ha), (rnd_neg b) by lra.
    assert (R : round_pos (- a) == round_pos (- b)) by (apply round_pos_comp; lra).
    rewrite (Qle_bool_eq _ _ _ R).
    destruct (Qle_bool _ _); [reflexivity|]. f_equal. apply Qred_complete. lra.
  - rewrite (rnd_pos a Ha), (rnd_pos b) by lra.
    assert (R : round_pos a == round_pos b) by (apply round_pos_comp; lra).
    rewrite (Qle_bool_eq _ _ _ R).
    destruct (Qle_bool _ _); [reflexivity|]. f_equal. now apply Qred_complete.
  - rewrite (rnd_zero a Ha), (rnd_zero b); [reflexivity | lra].
Qed.

Lemma rnd_idem q x : rnd q = Fin x -> rnd x = Fin x.
Proof.
  destruct (Q_dec q 0) as [[Hq|Hq]|Hq].
  - rewrite (rnd_neg q Hq).
    destruct (Qle_bool _ _) eqn:E; [discriminate|]. intros H.
    replace x with (Qred (- round_pos (- q))) by congruence. clear H.
    apply Qle_bool_false in E. set (r := round_pos (- q)) in *.
    pose proof (round_pos_nonneg (- q)) as N. fold r in N.
    destruct (Qlt_le_dec 0 r) as [P|Z].
    + rewrite (rnd_comp (Qred (- r)) (- r)) by apply Qred_correct.
      rewrite rnd_neg by lra.
      assert (R : round_pos (- - r) == r).
      { rewrite (round_pos_comp (- - r) r) by lra.
        subst r. apply round_pos_idem; [lra | exact P]. }
      rewrite (Qle_bool_eq _ _ _ R).
      assert (E' : Qle_bool (pow2 1024) r = false) by now apply Qle_bool_false.
      rewrite E'. f_equal. apply Qred_complete. lra.
    + assert (Z0 : - r == 0) by lra.
      rewrite (Qred_complete _ _ Z0). reflexivity.
  - rewrite (rnd_pos q Hq).
    destruct (Qle_bool _ _) eqn:E; [discriminate|]. intros H.
    replace x with (Qred (round_pos q)) by congruence. clear H.
    apply Qle_bool_false in E. set (r := round_pos q) in *.
    pose proof (round_pos_nonneg q) as N. fold r in N.
    destruct (Qlt_le_dec 0 r) as [P|Z].
    + rewrite (rnd_comp (Qred r) r) by apply Qred_correct.
      rewrite rnd_pos by lra.
      assert (R : round_pos r == r)
        by (subst r; apply round_pos_idem; [lra | exact P]).
      rewrite (Qle_bool_eq _ _ _ R).
      assert (E' : Qle_bool (pow2 1024) r = false) by now apply Qle_bool_false.
      rewrite E'. f_equal. now apply Qred_complete.
    + assert (Z0 : r == 0) by lra.
      rewrite (Qred_complete _ _ Z0). reflexivity.
  - rewrite (rnd_zero q Hq). intros H.
    replace x with 0 by congruence. reflexivity.
Qed.


(** ** The type of floats *)

(** Equality of representations. *)
Definition same (x y : xq) : bool :=
  match x, y with
  | Fin a, Fin b => Z.eqb (Qnum a) (Qnum b) && Pos.eqb (Qden a) (Qden b)
  | PInf, PInf | NInf, NInf | NaN, NaN => true
  | _, _ => false
  end.

Lemma same_eq x y : same x y = true <-> x = y.
Proof.
  destruct x as [[a b]| | |], y as [[c d]| | |]; simpl;
    try (split; [discriminate | congruence]); try tauto.
  rewrite andb_true_iff, Z.eqb_eq, Pos.eqb_eq. split.
  - intros [-> ->]. reflexivity.
  - intros [= -> ->]. auto.
Qed.

(** A finite value is a binary64 number when rounding leaves it as it is
    (it is then also a fraction in lowest terms). *)
Definition is_float (x : xq) : bool :=
  match x with
  | Fin q => same (rnd q) x
  | _ => true
  end.

(** A Python [float]. *)
Record float : Type := mk_float { val : xq; val_is_float : is_float val = true }.

Lemma rnd_is_float q : is_float (rnd q) = true.
Proof.
  destruct (rnd q) as [x| | |] eqn:E; try reflexivity.
  simpl. apply same_eq. exact (rnd_idem q x E).
Qed.

Lemma float_ext x y : val x = val y -> x = y.
Proof.
  destruct x as [x Hx], y as [y Hy]. simpl. intros <-. f_equal.
  apply UIP_dec. apply bool_dec.
Qed.

Lemma rnd_val x q : val x = Fin q -> rnd q = Fin q.
Proof.
  intros E. pose proof (val_is_float x) as H. rewrite E in H.
  now apply same_eq.
Qed.

(** The binary64 value nearest to a rational: what a decimal literal
    denotes, and the quotient [a / b] of two integers. *)
Definition of_Q (q : Q) : float := mk_float (rnd q) (rnd_is_float q).

Definition lit (q : Q) : float := of_Q q.

Definition nan : float := mk_float NaN eq_refl.
Definition inf : float := mk_float PInf eq_refl.
Definition neg_inf : float := mk_float NInf eq_refl.

(** [float(n)] for an integer [n].  Python raises OverflowError from about
    [2^1024] on, where this conversion gives an infinity; the integers the
    scorer converts are lengths of lists and small constants. *)
Definition of_int (n : Z) : float := of_Q (inject_Z n).

(** The sign of a value other than NaN. *)
Definition signum (x : xq) : Z :=
  match x with
  | Fin q => Z.sgn (Qnum q)
  | PInf => 1
  | NInf => -1
  | NaN => 0
  end.

Definition inf_of_sign (s : Z) : float :=
  match s with
  | Z0 => nan
  | Zpos _ => inf
  | Zneg _ => neg_inf
  end.

Definition fadd (x y : float) : float :=
  match val x, val y with
  | Fin a, Fin b => of_Q (a + b)
  | NaN, _ | _, NaN => nan
  | PInf, NInf | NInf, PInf => nan
  | PInf, _ | _, PInf => inf
  | NInf, _ | _, NInf => neg_inf
  end.

Definition fsub (x y : float) : float :=
  match val x, val y with
  | Fin a, Fin b => of_Q (a - b)
  | NaN, _ | _, NaN => nan
  | PInf, PInf | NInf, NInf => nan
  | PInf, _ | _, NInf => inf
  | NInf, _ | _, PInf => neg_inf
  end.

Definition fmul (x y : float) : float :=
  match val x, val y with
  | Fin a, Fin b => of_Q (a * b)
  | NaN, _ | _, NaN => nan
  | vx, vy => inf_of_sign (signum vx * signum vy)
  end.

(** [x / y].  Python raises ZeroDivisionError when [y] is zero; the model
    gives NaN there.  Every division of [scoring.py] is guarded against a
    zero divisor ([divisor_of_penalty_nonzero] below, and the tests on
    [len(keywords)] and [total_weight]). *)
Definition fdiv (x y : float) : float :=
  match val x, val y with
  | NaN, _ | _, NaN => nan
  | Fin a, Fin b => if Qeq_bool b 0 then nan else of_Q (a / b)
  | Fin _, _ => of_Q 0
  | _, Fin b => inf_of_sign (signum (val x) * Z.sgn (Qnum b))
  | _, _ => nan
  end.

Definition fltb (x y : float) : bool := xltb (val x) (val y).
Definition fleb (x y : float) : bool := xleb (val x) (val y).
Definition feqb (x y : float) : bool := xeqb (val x) (val y).

(** Comparisons of an integer with a float compare the exact values. *)
Definition int_ltb (n : Z) (x : float) : bool := xltb (Fin (inject_Z n)) (val x).
Definition int_gtb (n : Z) (x : float) : bool := xltb (val x) (Fin (inject_Z n)).

(** [math.isfinite], [numpy.isfinite], [math.isnan]. *)
Definition isfinite (x : float) : bool :=
  match val x with Fin _ => true | _ => false end.

Definition isnan (x : float) : bool :=
  match val x with NaN => true | _ => false end.

(** [max(a, b)]: the first argument unless the second is greater. *)
Definition py_max (a b : float) : float := if fltb a b then b else a.

(** [a / b] for integers [a] and [b <> 0]: the float nearest to the exact
    quotient. *)
Definition int_truediv (a b : Z) : float := of_Q (inject_Z a / inject_Z b).

(** [int(x)]: truncation towards zero.  Python raises on an infinity or
    NaN, where the model gives 0. *)
Definition to_int (x : float) : Z :=
  match val x with
  | Fin q => Z.quot (Qnum q) (Zpos (Qden q))
  | _ => 0%Z
  end.

(** [round(x, n)] for [n >= 0]: the exact value of [x] rounded to [n]
    decimals, ties to even, then to the nearest float. *)
Definition py_round (x : float) (n : Z) : float :=
  match val x with
  | Fin q => of_Q (inject_Z (rne (q * inject_Z (10 ^ n))) / inject_Z (10 ^ n))
  | _ => x
  end.

Declare Scope pyfloat_scope.
Delimit Scope pyfloat_scope with py.
Bind Scope pyfloat_scope with float.
Infix "+" := fadd : pyfloat_scope.
Infix "-" := fsub : pyfloat_scope.
Infix "*" := fmul : pyfloat_scope.
Infix "/" := fdiv : pyfloat_scope.
Infix "<?" := fltb : pyfloat_scope.
Infix "<=?" := fleb : pyfloat_scope.
Infix "=?" := feqb : pyfloat_scope.

(** ** Sample values, as Python prints them *)

Example lit_0_4 : val (lit (4 # 10)) = Fin (3602879701896397 # 9007199254740992).
Proof. vm_compute. reflexivity. Qed.

Example lit_0_5 : val (lit (1 # 2)) = Fin (1 # 2).
Proof. vm_compute. reflexivity. Qed.

Example sum_0_1_0_2 :
  val (lit (1 # 10) + lit (2 # 10))%py = Fin (1351079888211149 # 4503599627370496).
Proof. vm_compute. reflexivity. Qed.

Example one_minus_tiny :
  val (of_int 1 - lit (1 # 10 ^ 17))%py = Fin 1.
Proof. vm_compute. reflexivity. Qed.

Example round_2_675 : val (py_round (lit (2675 # 1000)) 2) = val (lit (267 # 100)).
Proof. vm_compute. reflexivity. Qed.

End PyFloat.

Import PyStr PyFloat.
Local Open Scope string_scope.
Local Open Scope list_scope.

(* ================================================================== *)
(** * Part 3: exceptions, cells and rows *)
(* ================================================================== *)

(** The one exception [score_transcript] can raise on a rubric table of
    the cells modelled here: [float(s)] of a string that is not a number. *)
Inductive exn : Type := ValueError.

Inductive result (A : Type) : Type :=
  | Ok (a : A)
  | Raise (e : exn).

Arguments Ok {A} a.
Arguments Raise {A} e.

Definition bind {A B : Type} (m : result A) (k : A -> result B) : result B :=
  match m with
  | Ok a => k a
  | Raise e => Raise e
  end.

Notation "x <- m ;; k" := (bind m (fun x => k))
  (at level 61, m at next level, right associativity).

Definition is_ok {A : Type} (m : result A) : bool :=
  match m with Ok _ => true | Raise _ => false end.

(** A cell of the rubric table: a string or a number.  A missing cell is the
    number NaN, as in pandas.  Cells of other types (a date, of which
    [float] raises TypeError) are outside the model. *)
Inductive cell : Type :=
  | CStr (s : string)
  | CNum (x : float).

(** [numpy.nan]. *)
Definition np_nan : cell := CNum nan.

(** [pandas.notna(v)]. *)
Definition notna (v : cell) : bool :=
  match v with
  | CStr _ => true
  | CNum x => negb (isnan x)
  end.

(** A row of the table ([pandas.Series]): the cells under their column
    names, in the order of the columns.  The names of a row are distinct, as
    in a table that pandas has read: under a repeated name [row[col]] is
    not a cell but a Series, which the model does not cover ([lookup] takes
    the first cell of that name). *)
Definition row : Type := list (string * cell).

(** [row[col]] when [col in row]. *)
Fixpoint lookup (col : string) (r : row) : option cell :=
  match r with
  | [] => None
  | (c, v) :: r' => if String.eqb c col then Some v else lookup col r'
  end.

(** [col in row]. *)
Definition has_col (col : string) (r : row) : bool :=
  match lookup col r with Some _ => true | None => false end.

(** A rubric table ([pandas.DataFrame]): its rows in order. *)
Definition dataframe : Type := list row.

(* ================================================================== *)
(** * Part 4: scoring.py *)
(* ================================================================== *)

Section Scoring.

(** [str(x)] for a float [x] other than NaN, and [float(s)] for a string
    [s] ([None] when Python raises ValueError): conversions of the Python
    runtime, left abstract. *)
Variable float_repr : float -> string.
Variable float_of_str : string -> option float.

(** The global [model] of [scoring.py]: [None] when the sentence encoder
    could not be loaded, else the cosine similarity of the embeddings of
    two sentences ([model.encode] followed by [cosine_similarity]). *)
Variable model : option (string -> string -> float).

(** [str(v)] for a cell. *)
Definition py_str (v : cell) : string :=
  match v with
  | CStr s => s
  | CNum x => if isnan x then "nan" else float_repr x
  end.

(** [float(v)] for a cell. *)
Definition py_float (v : cell) : result float :=
  match v with
  | CNum x => Ok x
  | CStr s =>
      match float_of_str s with
      | Some x => Ok x
      | None => Raise ValueError
      end
  end.

(** Lines 35-40. *)
Definition preprocess_text (text : string) : string :=
  let text := strip text in
  let text := replace_char newline space text in
  sub_ws_runs false text.

Record keyword_result : Type := {
  kw_score : float;
  kw_found : list string;
  kw_missing : list string
}.

(** The list comprehension of lines 67-71. *)
Definition keywords_of (keyword_str : cell) : list string :=
  map (fun k => lower (strip k))
      (filter (fun k => nonempty (strip k))
              (split_on comma (py_str keyword_str))).

(** The loop of lines 76-80, which appends each keyword to [found] or to
    [missing]. *)
Fixpoint match_keywords (transcript_lower : string) (keywords : list string)
  : list string * list string :=
  match keywords with
  | [] => ([], [])
  | kw :: rest =>
      let (found, missing) := match_keywords transcript_lower rest in
      if nonempty kw && contains kw transcript_lower
      then (kw :: found, missing)
      else (found, kw :: missing)
  end.

(** Lines 64-91. *)
Definition compute_keyword_score (transcript : string) (keyword_str : cell)
  : keyword_result :=
  let transcript_lower := lower transcript in
  let keywords := keywords_of keyword_str in
  let (found, missing) := match_keywords transcript_lower keywords in
  let coverage :=
    if (List.length keywords =? 0)%nat then lit 1
    else int_truediv (Z.of_nat (List.length found)) (Z.of_nat (List.length keywords)) in
  {| kw_score := coverage; kw_found := found; kw_missing := missing |}.

Record length_result : Type := {
  penalty : float;
  suggestion : string
}.

(** The two branches of [compute_length_penalty] (lines 109-114 and
    116-121). *)
Definition too_short (word_count : Z) (min_words : float) : length_result :=
  let diff := (min_words - of_int word_count)%py in
  {| penalty := py_max (lit (4 # 10))
                       (of_int 1 - diff / py_max min_words (of_int 1))%py;
     suggestion := "Too short by about " ++ str_of_int (to_int diff)
                   ++ " words. Try adding a bit more detail." |}.

Definition too_long (word_count : Z) (max_words : float) : length_result :=
  let diff := (of_int word_count - max_words)%py in
  {| penalty := py_max (lit (4 # 10))
                       (of_int 1 - diff / py_max max_words (of_int 1))%py;
     suggestion := "Too long by about " ++ str_of_int (to_int diff)
                   ++ " words. Try being a bit more concise." |}.

(** Lines 94-123. *)
Definition compute_length_penalty (word_count : Z) (min_words max_words : float)
  : length_result :=
  if negb (isfinite min_words || isfinite max_words)
  then {| penalty := lit 1; suggestion := "" |}
  else if isfinite min_words && int_ltb word_count min_words
  then too_short word_count min_words
  else if isfinite max_words && int_gtb word_count max_words
  then too_long word_count max_words
  else {| penalty := lit 1; suggestion := "" |}.

(** Lines 126-139.  The similarity is a numpy scalar, of type float32 for
    the embeddings of the encoder.  The sum and the quotient are computed
    here in binary64, as NumPy 1 computes them (a float32 scalar and a
    Python integer give a float64); NumPy 2 rounds both to binary32 before
    [float] converts the result. *)
Definition compute_semantic_score (transcript : string) (rubric_description : cell)
  : float :=
  match model with
  | None => lit (1 # 2)
  | Some cosine =>
      let sim := cosine transcript (py_str rubric_description) in
      ((sim + of_int 1) / of_int 2)%py
  end.

(** The first loop of [_get_criterion_name] (lines 148-150). *)
Fixpoint first_named (cols : list string) (r : row) : option string :=
  match cols with
  | [] => None
  | col :: cols' =>
      match lookup col r with
      | Some v => if notna v then Some (strip (py_str v)) else first_named cols' r
      | None => first_named cols' r
      end
  end.

(** Its second loop (lines 153-155). *)
Fixpoint first_value (r : row) : option string :=
  match r with
  | [] => None
  | (_, v) :: r' => if notna v then Some (strip (py_str v)) else first_value r'
  end.

(** Lines 145-157. *)
Definition _get_criterion_name (r : row) : string :=
  match first_named ["Criterion"; "Criteria"; "Parameter"; "Aspect"] r with
  | Some name => name
  | None =>
      match first_value r with
      | Some name => name
      | None => "Unnamed Criterion"
      end
  end.

(** Lines 160-164. *)
Fixpoint _get_first_existing (r : row) (candidates : list string) : cell :=
  match candidates with
  | [] => np_nan
  | col :: candidates' =>
      match lookup col r with
      | Some v => v
      | None => _get_first_existing r candidates'
      end
  end.

Record criterion_result : Type := {
  criterion : string;
  weight : float;
  keyword_score : float;
  semantic_score : float;
  length_penalty : float;
  final_score_0_1 : float;
  keywords_found : list string;
  keywords_missing : list string;
  length_feedback : string
}.

Record scoring_result : Type := {
  overall_score : float;
  word_count : Z;
  per_criterion : list criterion_result
}.

(** Lines 193-197: the weight of a row, 1.0 when the cell is missing or
    is not a number. *)
Definition weight_of (r : row) : float :=
  let weight_raw := _get_first_existing r ["Weight"; "Weights"; "MaxScore"] in
  if notna weight_raw
  then match py_float weight_raw with
       | Ok w => w
       | Raise _ => lit 1
       end
  else lit 1.

(** Lines 199-204, for one of the two bounds. *)
Definition bound_of (r : row) (candidates : list string) : result float :=
  let b := _get_first_existing r candidates in
  if notna b then py_float b else Ok nan.

(** The score of a criterion before rounding and its weight: what one turn
    of the loop adds to [weighted_sum] and [total_weight]. *)
Record scored : Type := {
  shown : criterion_result;
  final : float;
  its_weight : float
}.

(** The body of the loop (lines 181-238). *)
Definition score_row (transcript : string) (wc : Z) (r : row) : result scored :=
  let criterion_name := _get_criterion_name r in
  let description :=
    _get_first_existing r ["Description"; "Criteria Description"; "Detail"; "Details"] in
  let keywords :=
    _get_first_existing r ["Keywords"; "Keyword"; "Key words"; "KeyWords"] in
  let w := weight_of r in
  min_words <- bound_of r ["MinWords"; "Min Words"] ;;
  max_words <- bound_of r ["MaxWords"; "Max Words"] ;;
  let kw_result := compute_keyword_score transcript keywords in
  let semantic := compute_semantic_score transcript description in
  let length_info := compute_length_penalty wc min_words max_words in
  let base_score := (lit (1 # 2) * kw_score kw_result + lit (1 # 2) * semantic)%py in
  let final_score := (base_score * penalty length_info)%py in
  Ok {| shown :=
          {| criterion := criterion_name;
             weight := w;
             keyword_score := py_round (kw_score kw_result) 3;
             semantic_score := py_round semantic 3;
             length_penalty := py_round (penalty length_info) 3;
             final_score_0_1 := py_round final_score 3;
             keywords_found := kw_found kw_result;
             keywords_missing := kw_missing kw_result;
             length_feedback := suggestion length_info |};
        final := final_score;
        its_weight := w |}.

(** The loop of lines 180-238: [acc], [weighted_sum] and [total_weight] are
    the values of [per_criterion_results] and of the two sums so far. *)
Fixpoint score_rows (transcript : string) (wc : Z) (rows : list row)
  (acc : list criterion_result) (weighted_sum total_weight : float)
  : result (list criterion_result * float * float) :=
  match rows with
  | [] => Ok (acc, weighted_sum, total_weight)
  | r :: rows' =>
      sc <- score_row transcript wc r ;;
      let weighted := (final sc * its_weight sc)%py in
      score_rows transcript wc rows' (acc ++ [shown sc])
                 (weighted_sum + weighted)%py (total_weight + its_weight sc)%py
  end.

(** Lines 167-251. *)
Definition score_transcript (transcript : string) (rubric_df : dataframe)
  : result scoring_result :=
  let transcript := preprocess_text transcript in
  let words := split_ws transcript in
  let wc := Z.of_nat (List.length words) in
  st <- score_rows transcript wc rubric_df [] (lit 0) (lit 0) ;;
  let '(per_criterion_results, weighted_sum, total_weight) := st in
  let overall_0_1 :=
    if (total_weight =? of_int 0)%py then lit 0
    else (weighted_sum / total_weight)%py in
  let overall_score_0_100 := py_round (overall_0_1 * of_int 100)%py 2 in
  Ok {| overall_score := overall_score_0_100;
        word_count := wc;
        per_criterion := per_criterion_results |}.

End Scoring.

(* ================================================================== *)
(** * Part 5: properties *)
(* ================================================================== *)

(** Conversions for tables on which [str] and [float] are never applied to
    a number or to a string: every call of them is on a cell of the other
    kind or on NaN. *)
Definition unused_repr : float -> string := fun _ => "".
Definition unused_parse : string -> option float := fun _ => None.

(** ** Text normalisation *)

Lemma preprocess_text_normalized s : normalized (preprocess_text s).
Proof.
  unfold preprocess_text, normalized.
  set (u := replace_char newline space (strip s)).
  assert (R : rstrip u = u).
  { unfold u. rewrite rstrip_replace_char by reflexivity.
    unfold strip. now rewrite rstrip_idem. }
  destruct (strip_head s) as [E|(c & r & E & C)].
  - left. unfold u. now rewrite E.
  - right. unfold u in *. rewrite E in *. simpl in *.
    destruct (Ascii.eqb c newline) eqn:N.
    + apply eqb_newline_isspace in N. congruence.
    + rewrite C. cbn [tidy]. rewrite C.
      apply rstrip_fixed_cons in R. destruct R as [R _].
      apply (sub_ws_runs_tidy _ false R). reflexivity.
Qed.

Lemma normalized_fixed s : normalized s -> preprocess_text s = s.
Proof.
  intros [->|T]; [reflexivity|]. unfold preprocess_text, strip.
  rewrite (tidy_lstrip s T), (tidy_rstrip s true T), (tidy_replace_newline s true T).
  destruct s as [|c s]; [reflexivity|]. simpl in *.
  destruct (isspace c); [now destruct T as (_ & T & _)|].
  now rewrite (tidy_sub_ws_runs s false T).
Qed.

(** C9.  Text normalisation is idempotent: normalising the output of
    [preprocess_text] returns it unchanged. *)
Theorem C9_preprocess_text_idempotent :
  forall s : string, preprocess_text (preprocess_text s) = preprocess_text s.
Proof.
  intros s. apply normalized_fixed, preprocess_text_normalized.
Qed.

(** ** Field resolution *)

Definition keyword_columns : list string :=
  ["Keywords"; "Keyword"; "Key words"; "KeyWords"].

Definition name_columns : list string :=
  ["Criterion"; "Criteria"; "Parameter"; "Aspect"].

(** The resolution policy in the words of the specification: the value of
    the first synonym column that is present and holds a non-missing value. *)
Fixpoint first_present_not_missing (r : row) (candidates : list string) : cell :=
  match candidates with
  | [] => np_nan
  | col :: candidates' =>
      match lookup col r with
      | Some v => if notna v then v else first_present_not_missing r candidates'
      | None => first_present_not_missing r candidates'
      end
  end.

(** A row whose "Keywords" cell is empty and whose "Keyword" cell is not. *)
Definition row_two_keyword_columns : row :=
  [("Keywords", np_nan); ("Keyword", CStr "python")].

(** C2, as stated, fails: on a row with an empty "Keywords" cell and a
    filled "Keyword" cell the code returns the missing value of the first
    column, where the stated policy selects the value of the second. *)
Lemma C2_counterexample :
  _get_first_existing row_two_keyword_columns keyword_columns = np_nan /\
  first_present_not_missing row_two_keyword_columns keyword_columns = CStr "python".
Proof. split; reflexivity. Qed.

Lemma has_col_lookup col r :
  has_col col r = true -> exists v, lookup col r = Some v.
Proof. unfold has_col. destruct (lookup col r); [eauto | discriminate]. Qed.

Lemma has_col_false col r : has_col col r = false -> lookup col r = None.
Proof. unfold has_col. now destruct (lookup col r). Qed.

(** C2, amended.  Field resolution scans the synonym list in priority order
    and returns the cell of the first column that is present in the row,
    whether its value is missing or not, and NaN when no synonym is present;
    when the returned value is not missing, it is the value the stated
    policy selects. *)
Theorem C2_first_existing_column :
  forall (r : row) (candidates : list string),
    match find (fun col => has_col col r) candidates with
    | Some col => lookup col r = Some (_get_first_existing r candidates)
    | None => _get_first_existing r candidates = np_nan
    end /\
    (notna (_get_first_existing r candidates) = true ->
     first_present_not_missing r candidates = _get_first_existing r candidates).
Proof.
  intros r candidates. split.
  - induction candidates as [|col cs IH]; simpl; [reflexivity|].
    destruct (has_col col r) eqn:H.
    + destruct (has_col_lookup col r H) as [v E]. now rewrite E.
    + now rewrite (has_col_false col r H).
  - induction candidates as [|col cs IH]; simpl; [reflexivity|].
    destruct (lookup col r) as [v|]; [|exact IH].
    intros N. now rewrite N.
Qed.

Lemma C2_first_existing_column_witness :
  first_present_not_missing [("Keyword", CStr "python")] keyword_columns
  = _get_first_existing [("Keyword", CStr "python")] keyword_columns.
Proof.
  exact (proj2 (C2_first_existing_column [("Keyword", CStr "python")] keyword_columns)
               eq_refl).
Defined.

(** ** The name of a criterion *)

(** The cell the name is read from, in the words of the specification: the
    first name column with a non-missing value, otherwise the first
    non-missing cell of the row. *)
Fixpoint first_cell_named (cols : list string) (r : row) : option cell :=
  match cols with
  | [] => None
  | col :: cols' =>
      match lookup col r with
      | Some v => if notna v then Some v else first_cell_named cols' r
      | None => first_cell_named cols' r
      end
  end.

Fixpoint first_cell (r : row) : option cell :=
  match r with
  | [] => None
  | (_, v) :: r' => if notna v then Some v else first_cell r'
  end.

Definition name_source (r : row) : option cell :=
  match first_cell_named name_columns r with
  | Some v => Some v
  | None => first_cell r
  end.

(** Every character of the string is whitespace. *)
Fixpoint all_space (s : string) : bool :=
  match s with
  | EmptyString => true
  | String c s' => isspace c && all_space s'
  end.

Lemma lstrip_empty s : lstrip s = EmptyString <-> all_space s = true.
Proof.
  induction s as [|c s IH]; simpl; [tauto|].
  destruct (isspace c); simpl; [exact IH | split; discriminate].
Qed.

Lemma rstrip_head_kept c s : isspace c = false -> rstrip (String c s) <> EmptyString.
Proof. intros E. simpl. rewrite E. now destruct (rstrip s). Qed.

Lemma strip_empty s : strip s = EmptyString <-> all_space s = true.
Proof.
  rewrite <- lstrip_empty. unfold strip.
  destruct (lstrip_head s) as [->|(c & r & -> & E)]; [tauto|].
  split; [|discriminate]. intros H. now apply rstrip_head_kept in H.
Qed.

Section Names.

Variable float_repr : float -> string.

Lemma first_named_spec cols r :
  first_named float_repr cols r
  = option_map (fun v => strip (py_str float_repr v)) (first_cell_named cols r).
Proof.
  induction cols as [|col cols IH]; simpl; [reflexivity|].
  destruct (lookup col r) as [v|]; [|exact IH].
  destruct (notna v); [reflexivity | exact IH].
Qed.

Lemma first_value_spec r :
  first_value float_repr r
  = option_map (fun v => strip (py_str float_repr v)) (first_cell r).
Proof.
  induction r as [|[c v] r IH]; simpl; [reflexivity|].
  destruct (notna v); [reflexivity | exact IH].
Qed.

Lemma criterion_name_spec r :
  _get_criterion_name float_repr r =
  match name_source r with
  | Some v => strip (py_str float_repr v)
  | None => "Unnamed Criterion"
  end.
Proof.
  unfold _get_criterion_name, name_source. fold name_columns.
  rewrite first_named_spec, first_value_spec.
  destruct (first_cell_named name_columns r); simpl; [reflexivity|].
  now destruct (first_cell r).
Qed.

End Names.

(** C7, as stated, fails: a row whose "Criterion" cell holds a single space
    gets the empty name. *)
Lemma C7_counterexample :
  _get_criterion_name unused_repr [("Criterion", CStr " ")] = "".
Proof. reflexivity. Qed.

(** C7, amended.  The name of a criterion is the string form, stripped of
    surrounding whitespace, of the first name column holding a non-missing
    value, otherwise of the first non-missing cell of the row, otherwise the
    placeholder; it is empty exactly when the string form of that cell is
    empty or consists of whitespace only. *)
Theorem C7_criterion_name :
  forall (float_repr : float -> string) (r : row),
    _get_criterion_name float_repr r =
    match name_source r with
    | Some v => strip (py_str float_repr v)
    | None => "Unnamed Criterion"
    end /\
    (_get_criterion_name float_repr r = "" <->
     exists v, name_source r = Some v /\ all_space (py_str float_repr v) = true).
Proof.
  intros float_repr r. split; [apply criterion_name_spec|].
  rewrite criterion_name_spec. destruct (name_source r) as [v|].
  - rewrite strip_empty. split; [eauto|]. now intros (v' & [= <-] & H).
  - split; [discriminate|]. now intros (v & E & _).
Qed.

Lemma C7_criterion_name_witness :
  _get_criterion_name unused_repr [("Criterion", CStr "Technical Skills")] <> "".
Proof.
  intros H.
  destruct (proj1 (proj2 (C7_criterion_name unused_repr
                            [("Criterion", CStr "Technical Skills")])) H)
    as (v & E & A).
  injection E as <-. discriminate A.
Defined.

(** ** Facts on rounding used below *)

Lemma rnd_0 : rnd 0 = Fin 0.
Proof. reflexivity. Qed.

Lemma rnd_1 : rnd 1 = Fin 1.
Proof. vm_compute. reflexivity. Qed.

Lemma rnd_2 : rnd 2 = Fin 2.
Proof. vm_compute. reflexivity. Qed.

Lemma rnd_half : rnd (1 # 2) = Fin (1 # 2).
Proof. vm_compute. reflexivity. Qed.

Lemma rnd_100 : rnd 100 = Fin 100.
Proof. vm_compute. reflexivity. Qed.

(** The float just below 1 and the float [2^-53]. *)
Lemma rnd_below_1 : rnd (1 - (1 # 2 ^ 53)) = Fin (1 - (1 # 2 ^ 53)).
Proof. vm_compute. reflexivity. Qed.

Lemma rnd_2_m53 : rnd (1 # 2 ^ 53) = Fin (1 # 2 ^ 53).
Proof. vm_compute. reflexivity. Qed.

Lemma rnd_not_nan q : rnd q <> NaN.
Proof.
  unfold rnd. destruct (Qcompare q 0); [discriminate | |];
    destruct (Qle_bool _ _); discriminate.
Qed.

Lemma inject_Z_pos n : (0 < n)%Z -> 0 < inject_Z n.
Proof. intros H. change 0 with (inject_Z 0). now rewrite <- Zlt_Qlt. Qed.

(** The integers from 0 to [2^53] are floats. *)
Lemma rnd_int m :
  (0 <= m <= 2 ^ 53)%Z -> exists q, rnd (inject_Z m) = Fin q /\ q == inject_Z m.
Proof.
  intros [L U]. destruct (Z.eq_dec m 0) as [->|N].
  - exists 0. split; reflexivity.
  - assert (P : 0 < inject_Z m) by (apply inject_Z_pos; lia).
    assert (B : inject_Z m <= pow2 53).
    { rewrite pow2_Z by lia. now rewrite <- Zle_Qle. }
    assert (O : 1 <= inject_Z m).
    { change 1 with (inject_Z 1). rewrite <- Zle_Qle. lia. }
    destruct (mag_spec (inject_Z m) P) as [M1 M2].
    assert (K1 : (mag (inject_Z m) <= 54)%Z).
    { assert (X : (mag (inject_Z m) - 1 < 54)%Z); [|lia].
      apply pow2_lt_inv. apply Qle_lt_trans with (pow2 53); [lra|].
      apply pow2_lt. lia. }
    assert (G : round_pos (inject_Z m) == inject_Z m).
    { destruct (Z_le_gt_dec (mag (inject_Z m)) 53) as [S|S].
      - apply round_pos_grid
          with (z := (m * 2 ^ (- fexp (mag (inject_Z m))))%Z); [exact P|].
        assert (E : (fexp (mag (inject_Z m)) <= 0)%Z) by (unfold fexp; lia).
        pose proof (pow2_grid _ 0 E) as H. change (pow2 0) with 1 in H.
        rewrite inject_Z_mult, <- Qmult_assoc.
        replace (- fexp (mag (inject_Z m)))%Z with (0 - fexp (mag (inject_Z m)))%Z
          by lia.
        rewrite <- H. ring.
      - assert (K : mag (inject_Z m) = 54%Z) by lia.
        apply round_pos_grid with (z := (2 ^ 52)%Z); [exact P|].
        rewrite K in *. change (fexp 54) with 1%Z.
        change (54 - 1)%Z with 53%Z in M1.
        assert (E : inject_Z m == pow2 53) by lra.
        rewrite E. apply (pow2_grid 1 53). lia. }
    rewrite (rnd_pos _ P).
    assert (F : Qle_bool (pow2 1024) (round_pos (inject_Z m)) = false).
    { apply Qle_bool_false. rewrite G.
      apply Qle_lt_trans with (pow2 53); [exact B | apply pow2_lt; lia]. }
    rewrite F. exists (Qred (round_pos (inject_Z m))). split; [reflexivity|].
    now rewrite Qred_correct.
Qed.

Lemma to_int_exact x q k : val x = Fin q -> q == inject_Z k -> to_int x = k.
Proof.
  intros E H. unfold to_int. rewrite E.
  destruct q as [n d]. unfold Qeq in H. simpl in *.
  rewrite Z.mul_1_r in H. rewrite H. apply Z.quot_mul. discriminate.
Qed.

Lemma of_int_exact m :
  (0 <= m <= 2 ^ 53)%Z -> exists q, val (of_int m) = Fin q /\ q == inject_Z m.
Proof. apply rnd_int. Qed.

Lemma val_fadd x y a b :
  val x = Fin a -> val y = Fin b -> val (x + y)%py = rnd (a + b).
Proof. intros Ex Ey. unfold fadd. now rewrite Ex, Ey. Qed.

Lemma val_fmul x y a b :
  val x = Fin a -> val y = Fin b -> val (x * y)%py = rnd (a * b).
Proof. intros Ex Ey. unfold fmul. now rewrite Ex, Ey. Qed.

Lemma val_fdiv x y a b :
  val x = Fin a -> val y = Fin b -> ~ b == 0 -> val (x / y)%py = rnd (a / b).
Proof.
  intros Ex Ey N. unfold fdiv. rewrite Ex, Ey.
  destruct (Qeq_bool b 0) eqn:Z; [apply Qeq_bool_iff in Z; contradiction | reflexivity].
Qed.

Lemma val_of_int n : val (of_int n) = rnd (inject_Z n).
Proof. reflexivity. Qed.

(** A rational between two floats rounds to a float between them. *)
Lemma rnd_between lo hi q :
  rnd lo = Fin lo -> rnd hi = Fin hi -> lo <= q <= hi ->
  exists x, rnd q = Fin x /\ lo <= x <= hi.
Proof.
  intros Hlo Hhi [L U].
  pose proof (rnd_mono lo q L) as A. pose proof (rnd_mono q hi U) as B.
  rewrite Hlo in A. rewrite Hhi in B.
  destruct (rnd q) as [x| | |]; simpl in *; try contradiction. eauto.
Qed.

Lemma rnd_ge lo q : rnd lo = Fin lo -> lo <= q -> xle (Fin lo) (rnd q).
Proof. intros Hlo L. rewrite <- Hlo. now apply rnd_mono. Qed.

Lemma rnd_le hi q : rnd hi = Fin hi -> q <= hi -> xle (rnd q) (Fin hi).
Proof. intros Hhi U. rewrite <- Hhi. now apply rnd_mono. Qed.

(** A float between 0 and 1. *)
Definition unit_float (x : float) : Prop :=
  exists q, val x = Fin q /\ 0 <= q <= 1.

Lemma unit_float_lit_1 : unit_float (lit 1).
Proof. exists 1. split; [exact rnd_1 | lra]. Qed.

Lemma unit_float_lit_0 : unit_float (lit 0).
Proof. exists 0. split; [exact rnd_0 | lra]. Qed.

Lemma unit_float_half : unit_float (lit (1 # 2)).
Proof. exists (1 # 2). split; [exact rnd_half | lra]. Qed.

Lemma int_truediv_unit a b :
  (0 <= a <= b)%Z -> (0 < b)%Z -> unit_float (int_truediv a b).
Proof.
  intros Ha Hb. unfold unit_float, int_truediv. simpl.
  apply rnd_between; [exact rnd_0 | exact rnd_1 |].
  assert (B : 0 < inject_Z b) by (change 0 with (inject_Z 0); rewrite <- Zlt_Qlt; lia).
  split.
  - apply Qle_shift_div_l; [exact B|]. rewrite Qmult_0_l.
    change 0 with (inject_Z 0). rewrite <- Zle_Qle. lia.
  - apply Qle_shift_div_r; [exact B|]. rewrite Qmult_1_l.
    rewrite <- Zle_Qle. lia.
Qed.

(** ** Keyword coverage *)

Lemma nonempty_lower s : nonempty (lower s) = nonempty s.
Proof. now destruct s. Qed.

Section Keywords.

Variable float_repr : float -> string.

Lemma keywords_nonempty keyword_str kw :
  In kw (keywords_of float_repr keyword_str) -> nonempty kw = true.
Proof.
  unfold keywords_of. rewrite in_map_iff. intros (k & <- & H).
  apply filter_In in H. rewrite nonempty_lower. tauto.
Qed.

Lemma match_keywords_filter tl kws :
  match_keywords tl kws
  = (filter (fun kw => nonempty kw && contains kw tl) kws,
     filter (fun kw => negb (nonempty kw && contains kw tl)) kws).
Proof.
  induction kws as [|kw kws IH]; simpl; [reflexivity|].
  rewrite IH. now destruct (nonempty kw && contains kw tl).
Qed.

Lemma match_keywords_of tl keyword_str :
  match_keywords tl (keywords_of float_repr keyword_str)
  = (filter (fun kw => contains kw tl) (keywords_of float_repr keyword_str),
     filter (fun kw => negb (contains kw tl)) (keywords_of float_repr keyword_str)).
Proof.
  rewrite match_keywords_filter. f_equal; apply filter_ext_in; intros kw H;
    now rewrite (keywords_nonempty keyword_str kw H).
Qed.

End Keywords.

(** ** Matching up to case *)

(** The code points of a string. *)
Definition codes (s : string) : list N :=
  map N_of_ascii (list_ascii_of_string s).

(** [s.casefold()] for a string of code points below 256, as code points:
    the lower-case form, but for the sharp s (U+00DF), which gives "ss",
    and the micro sign (U+00B5), which gives the Greek mu (U+03BC). *)
Definition casefold_char (c : ascii) : list N :=
  let n := N_of_ascii c in
  if ((65 <=? n) && (n <=? 90)
      || (192 <=? n) && (n <=? 222) && negb (n =? 215))%N
  then [(n + 32)%N]
  else if (n =? 223)%N then [115%N; 115%N]
  else if (n =? 181)%N then [956%N]
  else [n].

Definition casefold (s : string) : list N :=
  flat_map casefold_char (list_ascii_of_string s).

(** [x in y] on sequences of code points. *)
Fixpoint starts_with (x y : list N) : bool :=
  match x, y with
  | [], _ => true
  | _ :: _, [] => false
  | a :: x', b :: y' => N.eqb a b && starts_with x' y'
  end.

Fixpoint occurs_in (x y : list N) : bool :=
  starts_with x y
  || match y with
     | [] => false
     | _ :: y' => occurs_in x y'
     end.

(** The case-insensitive containment of the specification, as Python
    tests it: [kw.casefold() in t.casefold()]. *)
Definition caseless_in (kw t : string) : bool :=
  occurs_in (casefold kw) (casefold t).

(** A string with no sharp s and no micro sign, the two characters below
    U+0100 whose [casefold] is not their [lower]. *)
Definition plain_char (c : ascii) : bool :=
  negb (N_of_ascii c =? 223)%N && negb (N_of_ascii c =? 181)%N.

Definition plain (s : string) : bool :=
  forallb plain_char (list_ascii_of_string s).

Lemma casefold_char_plain c :
  plain_char c = true -> casefold_char c = [N_of_ascii (lower_char c)].
Proof.
  destruct c as [[] [] [] [] [] [] [] []]; intros H;
    first [reflexivity | discriminate H].
Qed.

Lemma casefold_plain s : plain s = true -> casefold s = codes (lower s).
Proof.
  unfold plain, casefold, codes.
  induction s as [|c s IH]; simpl; [reflexivity|].
  rewrite andb_true_iff. intros [C H].
  now rewrite (casefold_char_plain c C), (IH H).
Qed.

Lemma N_of_ascii_eqb a b : (N_of_ascii a =? N_of_ascii b)%N = Ascii.eqb a b.
Proof.
  destruct (Ascii.eqb_spec a b) as [->|NE]; [apply N.eqb_refl|].
  apply N.eqb_neq. intros E. apply NE.
  now rewrite <- (ascii_N_embedding a), <- (ascii_N_embedding b), E.
Qed.

Lemma starts_with_codes x y : starts_with (codes x) (codes y) = prefix x y.
Proof.
  revert y. induction x as [|a x IH]; intros [|b y]; try reflexivity.
  cbn [codes list_ascii_of_string map starts_with prefix].
  rewrite N_of_ascii_eqb. fold (codes x). fold (codes y). rewrite IH.
  destruct (Ascii.ascii_dec a b) as [->|NE].
  - now rewrite Ascii.eqb_refl.
  - apply Ascii.eqb_neq in NE. now rewrite NE.
Qed.

Lemma occurs_in_codes x y : occurs_in (codes x) (codes y) = contains x y.
Proof.
  induction y as [|b y IH].
  - cbn [codes list_ascii_of_string map occurs_in contains].
    now rewrite <- (starts_with_codes x "").
  - cbn [codes list_ascii_of_string map occurs_in contains].
    fold (codes y). rewrite IH. f_equal.
    exact (starts_with_codes x (String b y)).
Qed.

Lemma filter_map_swap {A B : Type} (f : B -> bool) (g : A -> B) l :
  filter f (map g l) = map g (filter (fun a => f (g a)) l).
Proof.
  induction l as [|a l IH]; simpl; [reflexivity|].
  rewrite IH. now destruct (f (g a)).
Qed.

(** The keyword "strasse" written with the sharp s (U+00DF) for its "ss". *)
Definition strasse : string := "stra" ++ String "223"%char "e".

(** C5, as stated, fails: the keyword [strasse], written with the sharp s,
    is not found in the transcript "STRASSE", which is that keyword in
    capitals (its [upper()]) and in which it occurs when case is ignored;
    the score is 0.0. *)
Lemma C5_counterexample :
  caseless_in strasse "STRASSE" = true /\
  kw_found (compute_keyword_score unused_repr "STRASSE" (CStr strasse)) = [] /\
  kw_missing (compute_keyword_score unused_repr "STRASSE" (CStr strasse))
  = [strasse] /\
  val (kw_score (compute_keyword_score unused_repr "STRASSE" (CStr strasse)))
  = Fin 0.
Proof. vm_compute. repeat split. Qed.

(** C5, amended.  The keywords are the pieces of the cell between commas,
    trimmed, without the empty ones, in lower case.  The found and missing
    lists are the keywords that are, and that are not, substrings of the
    lower-cased transcript, each in the order of the keyword list and with
    its repetitions; the score is 1.0 for an empty keyword list and
    otherwise the quotient of the number of keywords found by the number of
    keywords; it lies between 0 and 1.  For a transcript and a piece without
    sharp s and micro sign, the keyword of the piece is found exactly when
    the piece occurs in the transcript with case ignored. *)
Theorem C5_keyword_score :
  forall (float_repr : float -> string) (transcript : string) (keyword_str : cell),
    let r := compute_keyword_score float_repr transcript keyword_str in
    let keywords := keywords_of float_repr keyword_str in
    let hit := fun kw => contains kw (lower transcript) in
    let pieces := filter nonempty
                    (map strip (split_on comma (py_str float_repr keyword_str))) in
    kw_found r = filter hit keywords /\
    kw_missing r = filter (fun kw => negb (hit kw)) keywords /\
    kw_score r =
      (if (List.length keywords =? 0)%nat then lit 1
       else int_truediv (Z.of_nat (List.length (filter hit keywords)))
                        (Z.of_nat (List.length keywords))) /\
    unit_float (kw_score r) /\
    keywords = map lower pieces /\
    (plain transcript = true ->
     forall piece, plain piece = true ->
       hit (lower piece) = caseless_in piece transcript).
Proof.
  intros float_repr transcript keyword_str r keywords hit pieces.
  unfold r, compute_keyword_score. fold keywords.
  unfold keywords. rewrite match_keywords_of. fold keywords. fold hit. simpl.
  repeat split.
  - destruct (Nat.eqb_spec (List.length keywords) 0) as [E|N].
    + apply unit_float_lit_1.
    + apply int_truediv_unit; [|lia].
      pose proof (filter_length_le hit keywords). lia.
  - unfold keywords, keywords_of, pieces.
    now rewrite filter_map_swap, map_map.
  - intros T piece P. unfold hit, caseless_in.
    rewrite (casefold_plain _ T), (casefold_plain _ P). symmetry.
    apply occurs_in_codes.
Qed.

Lemma C5_keyword_score_witness :
  kw_found (compute_keyword_score unused_repr "I know Python and SQL"
              (CStr "python, JAVA ,Sql,")) = ["python"; "sql"] /\
  kw_missing (compute_keyword_score unused_repr "I know Python and SQL"
                (CStr "python, JAVA ,Sql,")) = ["java"] /\
  kw_score (compute_keyword_score unused_repr "I know Python and SQL"
              (CStr "python, JAVA ,Sql,")) = int_truediv 2 3 /\
  contains "sql" (lower "I know Python and SQL")
  = caseless_in "Sql" "I know Python and SQL".
Proof.
  destruct (C5_keyword_score unused_repr "I know Python and SQL"
              (CStr "python, JAVA ,Sql,")) as (F & M & S & _ & _ & C).
  split; [rewrite F; vm_compute; reflexivity|].
  split; [rewrite M; vm_compute; reflexivity|].
  split; [rewrite S; apply float_ext; vm_compute; reflexivity|].
  apply (C eq_refl "Sql"). reflexivity.
Defined.

(** C1 fails on the code.  A missing keywords cell is the number NaN, whose
    string form is "nan": the keyword list is that one word, and the score is
    1.0 or 0.0 as the transcript contains "nan" or not. *)
Theorem C1_missing_keywords_match_nan :
  forall (float_repr : float -> string) (transcript : string),
    _get_first_existing [("Criterion", CStr "Intro")] keyword_columns = np_nan /\
    keywords_of float_repr np_nan = ["nan"] /\
    let r := compute_keyword_score float_repr transcript np_nan in
    if contains "nan" (lower transcript)
    then val (kw_score r) = Fin 1 /\ kw_found r = ["nan"] /\ kw_missing r = []
    else val (kw_score r) = Fin 0 /\ kw_found r = [] /\ kw_missing r = ["nan"].
Proof.
  intros float_repr transcript. split; [reflexivity|]. split; [reflexivity|].
  unfold compute_keyword_score.
  change (keywords_of float_repr np_nan) with ["nan"]. simpl.
  now destruct (contains "nan" (lower transcript)).
Qed.

(** The same through [score_transcript], on a table with no keywords
    column. *)
Example missing_keywords_example :
  exists res,
    score_transcript unused_repr unused_parse None "hello world"
                     [[("Criterion", CStr "Intro")]] = Ok res /\
    map (fun c => (val (keyword_score c), keywords_found c, keywords_missing c))
        (per_criterion res)
    = [(Fin 0, [], ["nan"])].
Proof.
  destruct (score_transcript _ _ _ _ _) as [res|e] eqn:E.
  - exists res. split; [reflexivity|].
    vm_compute in E. injection E as <-. vm_compute. reflexivity.
  - vm_compute in E. discriminate E.
Qed.

(** ** The length penalty *)

(** The conditions of the two penalty branches (lines 109 and 116). *)
Definition under_min (word_count : Z) (min_words : float) : bool :=
  isfinite min_words && int_ltb word_count min_words.

Definition over_max (word_count : Z) (max_words : float) : bool :=
  isfinite max_words && int_gtb word_count max_words.

Definition no_penalty : length_result := {| penalty := lit 1; suggestion := "" |}.

Lemma compute_length_penalty_cases wc mn mx :
  compute_length_penalty wc mn mx =
  if under_min wc mn then too_short wc mn
  else if over_max wc mx then too_long wc mx
  else no_penalty.
Proof.
  unfold compute_length_penalty, under_min, over_max.
  destruct (isfinite mn), (isfinite mx); reflexivity.
Qed.

Lemma isfinite_val x : isfinite x = true -> exists q, val x = Fin q.
Proof. unfold isfinite. destruct (val x); [eauto | discriminate..]. Qed.

Lemma under_min_spec wc mn :
  under_min wc mn = true <-> exists m, val mn = Fin m /\ inject_Z wc < m.
Proof.
  unfold under_min, isfinite, int_ltb. destruct (val mn) as [m| | |]; simpl.
  - rewrite Qltb_lt. split; [eauto | now intros (m' & [= <-] & H)].
  - split; [discriminate | intros (m & H & _); discriminate].
  - split; [discriminate | intros (m & H & _); discriminate].
  - split; [discriminate | intros (m & H & _); discriminate].
Qed.

Lemma over_max_spec wc mx :
  over_max wc mx = true <-> exists m, val mx = Fin m /\ m < inject_Z wc.
Proof.
  unfold over_max, isfinite, int_gtb. destruct (val mx) as [m| | |]; simpl.
  - rewrite Qltb_lt. split; [eauto | now intros (m' & [= <-] & H)].
  - split; [discriminate | intros (m & H & _); discriminate].
  - split; [discriminate | intros (m & H & _); discriminate].
  - split; [discriminate | intros (m & H & _); discriminate].
Qed.

(** The value of the literal 0.4. *)
Definition q04 : Q := 3602879701896397 # 9007199254740992.

Lemma rnd_04 : rnd (4 # 10) = Fin q04.
Proof. vm_compute. reflexivity. Qed.

(** The divisor [max(bound, 1)] of both branches is a float at least 1, so
    it is not zero. *)
Lemma divisor_of_penalty_nonzero bound :
  isfinite bound = true ->
  exists k, val (py_max bound (of_int 1)) = Fin k /\ 1 <= k.
Proof.
  intros F. destruct (isfinite_val bound F) as [b E].
  unfold py_max, fltb. rewrite E. change (val (of_int 1)) with (rnd (inject_Z 1)).
  change (inject_Z 1) with 1. rewrite rnd_1. simpl.
  destruct (Qltb b 1) eqn:L.
  - exists 1. change (val (of_int 1)) with (rnd 1). rewrite rnd_1. split; [reflexivity | lra].
  - exists b. apply Qltb_ge in L. auto.
Qed.

(** [max(0.4, 1 - diff / divisor)] for a deficit or an excess that is not
    negative lies between 0.4 and 1. *)
Lemma clamped_penalty_range diff divisor k :
  xle (Fin 0) (val diff) -> val divisor = Fin k -> 1 <= k ->
  exists p, val (py_max (lit (4 # 10)) (of_int 1 - diff / divisor)%py) = Fin p
            /\ q04 <= p <= 1.
Proof.
  intros D K Hk.
  assert (Y : xle (Fin 0) (val (diff / divisor)%py)).
  { unfold fdiv. rewrite K. destruct (val diff) as [a| | |] eqn:E; simpl in D; try contradiction.
    - destruct (Qeq_bool k 0) eqn:Z; [apply Qeq_bool_iff in Z; lra|].
      apply rnd_ge; [exact rnd_0|].
      apply Qle_shift_div_l; lra.
    - simpl. destruct k as [kn kd]. unfold Qle in Hk. simpl in *.
      assert (S : Z.sgn kn = 1%Z) by (apply Z.sgn_pos; lia).
      rewrite S. exact I. }
  assert (X : xle (val (of_int 1 - diff / divisor)%py) (Fin 1)).
  { unfold fsub. change (val (of_int 1)) with (rnd 1). rewrite rnd_1.
    destruct (val (diff / divisor)%py) as [y| | |]; simpl in Y; try contradiction.
    - apply rnd_le; [exact rnd_1 | lra].
    - exact I. }
  unfold py_max, fltb. change (val (lit (4 # 10))) with (rnd (4 # 10)). rewrite rnd_04.
  destruct (val (of_int 1 - diff / divisor)%py) as [x| | |] eqn:E; simpl in X; try contradiction.
  - simpl. destruct (Qltb q04 x) eqn:L.
    + exists x. apply Qltb_lt in L. split; [exact E | lra].
    + exists q04. change (val (lit (4 # 10))) with (rnd (4 # 10)).
      split; [exact rnd_04 | unfold q04; lra].
  - exists q04. simpl. change (val (lit (4 # 10))) with (rnd (4 # 10)).
    split; [exact rnd_04 | unfold q04; lra].
Qed.

Lemma deficit_nonneg wc mn :
  under_min wc mn = true -> xle (Fin 0) (val (mn - of_int wc)%py).
Proof.
  unfold under_min. rewrite andb_true_iff. intros [F L].
  destruct (isfinite_val mn F) as [m E].
  unfold int_ltb in L. rewrite E in L. simpl in L. apply Qltb_lt in L.
  pose proof (rnd_le m (inject_Z wc) (rnd_val mn m E) (Qlt_le_weak _ _ L)) as W.
  unfold fsub. rewrite E. change (val (of_int wc)) with (rnd (inject_Z wc)).
  destruct (rnd (inject_Z wc)) as [w| | |]; simpl in W; try contradiction.
  - apply rnd_ge; [exact rnd_0 | lra].
  - exact I.
Qed.

Lemma excess_nonneg wc mx :
  over_max wc mx = true -> xle (Fin 0) (val (of_int wc - mx)%py).
Proof.
  unfold over_max. rewrite andb_true_iff. intros [F L].
  destruct (isfinite_val mx F) as [m E].
  unfold int_gtb in L. rewrite E in L. simpl in L. apply Qltb_lt in L.
  pose proof (rnd_ge m (inject_Z wc) (rnd_val mx m E) (Qlt_le_weak _ _ L)) as W.
  unfold fsub. rewrite E. change (val (of_int wc)) with (rnd (inject_Z wc)).
  destruct (rnd (inject_Z wc)) as [w| | |]; simpl in W; try contradiction.
  - apply rnd_ge; [exact rnd_0 | lra].
  - exact I.
Qed.

(** The penalty is a float between 0.4 and 1. *)
Lemma penalty_range wc mn mx :
  exists p, val (penalty (compute_length_penalty wc mn mx)) = Fin p
            /\ q04 <= p <= 1.
Proof.
  rewrite compute_length_penalty_cases.
  destruct (under_min wc mn) eqn:U; [|destruct (over_max wc mx) eqn:O].
  - pose proof U as U'. unfold under_min in U'. apply andb_true_iff in U'.
    destruct (divisor_of_penalty_nonzero mn (proj1 U')) as (k & K & Hk).
    exact (clamped_penalty_range _ _ k (deficit_nonneg wc mn U) K Hk).
  - pose proof O as O'. unfold over_max in O'. apply andb_true_iff in O'.
    destruct (divisor_of_penalty_nonzero mx (proj1 O')) as (k & K & Hk).
    exact (clamped_penalty_range _ _ k (excess_nonneg wc mx O) K Hk).
  - exists 1. split; [exact rnd_1 | unfold q04; lra].
Qed.

Lemma suggestion_too_short wc mn : suggestion (too_short wc mn) <> "".
Proof. discriminate. Qed.

Lemma suggestion_too_long wc mx : suggestion (too_long wc mx) <> "".
Proof. discriminate. Qed.

Lemma penalty_bounds wc mn mx :
  fleb (lit (4 # 10)) (penalty (compute_length_penalty wc mn mx)) = true /\
  fleb (penalty (compute_length_penalty wc mn mx)) (lit 1) = true.
Proof.
  destruct (penalty_range wc mn mx) as (q & E & R).
  unfold fleb, lit, of_Q. cbn [val]. rewrite E, rnd_04, rnd_1. cbn [xleb].
  split; apply Qle_bool_iff; tauto.
Qed.

(** C4, as stated, fails: with 5 words, a minimum of 10 and a maximum of 2
    the word count is over the maximum, and the penalty is 0.5, from the
    deficit, where the formula of the excess gives 0.4. *)
Lemma C4_counterexample :
  over_max 5 (of_int 2) = true /\
  val (penalty (compute_length_penalty 5 (of_int 10) (of_int 2))) = Fin (1 # 2) /\
  val (penalty (too_long 5 (of_int 2))) = Fin q04.
Proof. vm_compute. repeat split. Qed.

(** C4, amended.  The penalty lies between 0.4 and 1.0; it is exactly 1.0
    when neither bound is finite and when the word count is neither under a
    finite minimum nor over a finite maximum; under a finite minimum it is
    [max(0.4, 1 - (min_words - word_count) / max(min_words, 1))]; over a
    finite maximum and not under a finite minimum it is
    [max(0.4, 1 - (word_count - max_words) / max(max_words, 1))]. *)
Theorem C4_length_penalty :
  forall (word_count : Z) (min_words max_words : float),
    let p := penalty (compute_length_penalty word_count min_words max_words) in
    (fleb (lit (4 # 10)) p = true /\ fleb p (lit 1) = true) /\
    (isfinite min_words = false -> isfinite max_words = false -> p = lit 1) /\
    (under_min word_count min_words = false ->
     over_max word_count max_words = false -> p = lit 1) /\
    (under_min word_count min_words = true ->
     p = py_max (lit (4 # 10))
                (of_int 1 - (min_words - of_int word_count)
                            / py_max min_words (of_int 1))%py) /\
    (under_min word_count min_words = false ->
     over_max word_count max_words = true ->
     p = py_max (lit (4 # 10))
                (of_int 1 - (of_int word_count - max_words)
                            / py_max max_words (of_int 1))%py).
Proof.
  intros wc mn mx p. split; [|repeat split].
  - apply penalty_bounds.
  - intros F1 F2. unfold p, compute_length_penalty. now rewrite F1, F2.
  - intros U O. unfold p. rewrite compute_length_penalty_cases. now rewrite U, O.
  - intros U. unfold p. rewrite compute_length_penalty_cases. now rewrite U.
  - intros U O. unfold p. rewrite compute_length_penalty_cases. now rewrite U, O.
Qed.

Lemma C4_length_penalty_witness :
  penalty (compute_length_penalty 12 (of_int 50) nan)
  = py_max (lit (4 # 10))
           (of_int 1 - (of_int 50 - of_int 12) / py_max (of_int 50) (of_int 1))%py.
Proof.
  refine (proj1 (proj2 (proj2 (proj2 (C4_length_penalty 12 (of_int 50) nan)))) _).
  vm_compute. reflexivity.
Defined.

(** C6.  For finite bounds the result is that of exactly one of the three
    cases of the code, and a word count under the minimum gets the result
    of the first branch, also when it is over the maximum as well: the
    penalty is [max(0.4, 1 - deficit / max(min_words, 1))] and the message
    names the deficit [min_words - word_count].  Over the maximum and not
    under the minimum the penalty and the message come from the excess
    [word_count - max_words]; otherwise the penalty is 1.0 and the message
    empty. *)
Theorem C6_min_checked_first :
  forall (word_count : Z) (min_words max_words : float),
    isfinite min_words = true -> isfinite max_words = true ->
    let r := compute_length_penalty word_count min_words max_words in
    (int_ltb word_count min_words = true ->
     r = too_short word_count min_words /\
     penalty r
     = py_max (lit (4 # 10))
              (of_int 1 - (min_words - of_int word_count)
                          / py_max min_words (of_int 1))%py /\
     suggestion r
     = ("Too short by about "
        ++ str_of_int (to_int (min_words - of_int word_count)%py)
        ++ " words. Try adding a bit more detail.")%string) /\
    (int_ltb word_count min_words = false -> int_gtb word_count max_words = true ->
     r = too_long word_count max_words /\
     penalty r
     = py_max (lit (4 # 10))
              (of_int 1 - (of_int word_count - max_words)
                          / py_max max_words (of_int 1))%py /\
     suggestion r
     = ("Too long by about "
        ++ str_of_int (to_int (of_int word_count - max_words)%py)
        ++ " words. Try being a bit more concise.")%string) /\
    (int_ltb word_count min_words = false -> int_gtb word_count max_words = false ->
     r = no_penalty /\ penalty r = lit 1 /\ suggestion r = "").
Proof.
  intros wc mn mx F1 F2 r. unfold r. rewrite compute_length_penalty_cases.
  unfold under_min, over_max. rewrite F1, F2. simpl.
  split; [|split].
  - intros H. rewrite H. repeat split.
  - intros H H'. rewrite H, H'. repeat split.
  - intros H H'. rewrite H, H'. repeat split.
Qed.

(** Five words, a minimum of 10 and a maximum of 2: the word count is
    under the minimum and over the maximum; the penalty is
    [1 - 5 / 10 = 0.5] and the message names the deficit of 5 words. *)
Lemma C6_min_checked_first_witness :
  int_ltb 5 (of_int 10) = true /\ int_gtb 5 (of_int 2) = true /\
  val (penalty (compute_length_penalty 5 (of_int 10) (of_int 2))) = Fin (1 # 2) /\
  suggestion (compute_length_penalty 5 (of_int 10) (of_int 2))
  = "Too short by about 5 words. Try adding a bit more detail.".
Proof.
  split; [vm_compute; reflexivity|]. split; [vm_compute; reflexivity|].
  destruct (proj1 (C6_min_checked_first 5 (of_int 10) (of_int 2) eq_refl eq_refl)
                  eq_refl) as (_ & P & S).
  rewrite P, S. split; vm_compute; reflexivity.
Defined.

(** C10, as stated, fails: for an empty transcript and a minimum of 1e-17
    words the first branch fires and produces a message, and the penalty
    [1 - 1e-17] is 1.0 in floating point. *)
Lemma C10_counterexample :
  val (penalty (compute_length_penalty 0 (lit (1 # 10 ^ 17)) nan)) = Fin 1 /\
  suggestion (compute_length_penalty 0 (lit (1 # 10 ^ 17)) nan)
  = "Too short by about 0 words. Try adding a bit more detail.".
Proof. vm_compute. split; reflexivity. Qed.

Lemma pow2_m53 : (1 # 2 ^ 53) == pow2 (-53).
Proof. reflexivity. Qed.

(** A float of magnitude 1 or more, scaled by [2^-53], is a float. *)
Lemma scaled_float k :
  rnd k = Fin k -> 1 <= k ->
  exists q, rnd (k * (1 # 2 ^ 53)) = Fin q /\ q == k * (1 # 2 ^ 53).
Proof.
  intros R Hk. assert (P : 0 < k) by lra.
  rewrite (rnd_pos k P) in R.
  destruct (Qle_bool (pow2 1024) (round_pos k)) eqn:O; [discriminate|].
  apply Qle_bool_false in O.
  assert (E : round_pos k == k).
  { replace k with (Qred (round_pos k)) at 2 by congruence.
    now rewrite Qred_correct. }
  destruct (mag_spec k P) as [M1 M2].
  assert (M0 : (0 < mag k)%Z).
  { apply pow2_lt_inv. change (pow2 0) with 1. lra. }
  set (x := k * (1 # 2 ^ 53)).
  assert (Px : 0 < x).
  { unfold x. change (1 # 2 ^ 53) with (1 # 9007199254740992). lra. }
  assert (Mx : mag x = (mag k - 53)%Z).
  { apply mag_unique; [exact Px | |]; unfold x; rewrite pow2_m53.
    - replace (mag k - 53 - 1)%Z with ((mag k - 1) + - 53)%Z by lia.
      rewrite pow2_add. apply Qmult_le_compat_r; [exact M1|].
      apply Qlt_le_weak, pow2_pos.
    - replace (mag k - 53)%Z with (mag k + - 53)%Z by lia.
      rewrite pow2_add. apply Qmult_lt_compat_r; [apply pow2_pos | exact M2]. }
  assert (G : round_pos x == x).
  { apply round_pos_grid with (z := rne (k / pow2 (fexp (mag k)))); [exact Px|].
    rewrite Mx.
    assert (F : fexp (mag k - 53) = (fexp (mag k) + - 53)%Z) by (unfold fexp; lia).
    rewrite F, pow2_add, Qmult_assoc. unfold x. rewrite pow2_m53.
    apply Qmult_comp; [|reflexivity]. symmetry. exact E. }
  rewrite (rnd_pos x Px).
  assert (F : Qle_bool (pow2 1024) (round_pos x) = false).
  { apply Qle_bool_false. rewrite G. unfold x.
    change (1 # 2 ^ 53) with (1 # 9007199254740992). lra. }
  rewrite F. exists (Qred (round_pos x)). split; [reflexivity|].
  now rewrite Qred_correct.
Qed.

(** The divisor [max(bound, 1)] of a finite bound. *)
Lemma divisor_spec bound b :
  val bound = Fin b ->
  exists k, val (py_max bound (of_int 1)) = Fin k /\ rnd k = Fin k /\ 1 <= k /\
            ((b < 1 /\ k = 1) \/ (1 <= b /\ k = b)).
Proof.
  intros E. unfold py_max, fltb. rewrite E.
  change (val (of_int 1)) with (rnd 1). rewrite rnd_1. cbn [xltb].
  destruct (Qltb b 1) eqn:L.
  - exists 1. change (val (of_int 1)) with (rnd 1). rewrite rnd_1.
    apply Qltb_lt in L.
    split; [reflexivity|]. split; [exact rnd_1|]. split; [lra | now left].
  - exists b. apply Qltb_ge in L.
    split; [exact E|]. split; [exact (rnd_val bound b E)|].
    split; [exact L | now right].
Qed.

(** A deficit or an excess of at least [2^-53] of the divisor gives a
    penalty below 1. *)
Lemma wide_gap_penalty_below_1 diff divisor k :
  val divisor = Fin k -> rnd k = Fin k -> 1 <= k ->
  (val diff = PInf \/ exists d, val diff = Fin d /\ k * (1 # 2 ^ 53) <= d) ->
  fltb (py_max (lit (4 # 10)) (of_int 1 - diff / divisor)%py) (lit 1) = true.
Proof.
  intros K Rk Hk G.
  assert (X : xle (val (of_int 1 - diff / divisor)%py) (Fin (1 - (1 # 2 ^ 53)))).
  { destruct G as [Inf|(d & D & Hd)].
    - assert (S : Z.sgn (Qnum k) = 1%Z).
      { destruct k as [kn kd]. unfold Qle in Hk. simpl in *. apply Z.sgn_pos. lia. }
      unfold fsub, fdiv. rewrite Inf, K. cbn [signum]. rewrite S. simpl. exact I.
    - assert (V : val (diff / divisor)%py = rnd (d / k))
        by (apply (val_fdiv diff divisor d k D K); lra).
      assert (Q : (1 # 2 ^ 53) <= d / k).
      { apply Qle_shift_div_l; [lra|]. now rewrite Qmult_comm. }
      pose proof (rnd_ge _ _ rnd_2_m53 Q) as Q'.
      unfold fsub. change (val (of_int 1)) with (rnd 1). rewrite rnd_1, V.
      destruct (rnd (d / k)) as [q| | |]; simpl in Q'; try contradiction.
      + apply rnd_le; [exact rnd_below_1|].
        change (1 # 2 ^ 53) with (1 # 9007199254740992) in *. lra.
      + exact I. }
  assert (P : exists p, val (py_max (lit (4 # 10))
                                    (of_int 1 - diff / divisor)%py) = Fin p /\ p < 1).
  { unfold py_max, fltb.
    change (val (lit (4 # 10))) with (rnd (4 # 10)). rewrite rnd_04.
    change (1 # 2 ^ 53) with (1 # 9007199254740992) in X.
    destruct (val (of_int 1 - diff / divisor)%py) as [x| | |] eqn:E;
      simpl in X; try contradiction; cbn [xltb].
    - destruct (Qltb q04 x).
      + exists x. split; [exact E | lra].
      + exists q04. split; [exact rnd_04 | unfold q04; lra].
    - exists q04. split; [exact rnd_04 | unfold q04; lra]. }
  destruct P as (p & Ep & Lp). unfold fltb. rewrite Ep.
  change (val (lit 1)) with (rnd 1). rewrite rnd_1. cbn [xltb].
  now apply Qltb_lt.
Qed.

(** The gap between the word count and a bound on whose wrong side it is, is
    at least [2^-53] of [max(bound, 1)]. *)
Definition wide_gap (word_count : Z) (min_words max_words : float) : Prop :=
  (forall m, val min_words = Fin m -> inject_Z word_count < m ->
     (1 # 2 ^ 53) <= m - inject_Z word_count /\
     m * (1 # 2 ^ 53) <= m - inject_Z word_count) /\
  (forall m, val max_words = Fin m -> m < inject_Z word_count ->
     (1 # 2 ^ 53) <= inject_Z word_count - m /\
     m * (1 # 2 ^ 53) <= inject_Z word_count - m).

Lemma rounded_gap k g :
  rnd k = Fin k -> 1 <= k -> k * (1 # 2 ^ 53) <= g ->
  rnd g = PInf \/ exists d, rnd g = Fin d /\ k * (1 # 2 ^ 53) <= d.
Proof.
  intros Rk Hk G. destruct (scaled_float k Rk Hk) as (q & Eq & Qq).
  pose proof (rnd_mono _ _ G) as M. rewrite Eq in M.
  destruct (rnd g) as [d| | |]; simpl in M; try contradiction.
  - right. exists d. split; [reflexivity | lra].
  - now left.
Qed.

Lemma wide_fired_below_1 wc mn mx :
  (0 <= wc <= 2 ^ 53)%Z -> wide_gap wc mn mx ->
  under_min wc mn || over_max wc mx = true ->
  fltb (penalty (compute_length_penalty wc mn mx)) (lit 1) = true.
Proof.
  intros Hwc [Gmn Gmx] F. rewrite compute_length_penalty_cases.
  destruct (of_int_exact wc Hwc) as (w & Ew & Qw).
  destruct (under_min wc mn) eqn:U.
  - apply under_min_spec in U. destruct U as (m & Em & L).
    destruct (Gmn m Em L) as [G1 G2].
    destruct (divisor_spec mn m Em) as (k & K & Rk & Hk & C).
    unfold too_short. cbn [penalty].
    apply (wide_gap_penalty_below_1 _ _ k K Rk Hk).
    assert (V : val (mn - of_int wc)%py = rnd (m - w))
      by (unfold fsub; now rewrite Em, Ew).
    rewrite V. apply (rounded_gap k (m - w) Rk Hk).
    rewrite Qw. destruct C as [[_ ->]|[_ ->]]; lra.
  - simpl in F. rewrite F.
    apply over_max_spec in F. destruct F as (m & Em & L).
    destruct (Gmx m Em L) as [G1 G2].
    destruct (divisor_spec mx m Em) as (k & K & Rk & Hk & C).
    unfold too_long. cbn [penalty].
    apply (wide_gap_penalty_below_1 _ _ k K Rk Hk).
    assert (V : val (of_int wc - mx)%py = rnd (w - m))
      by (unfold fsub; now rewrite Em, Ew).
    rewrite V. apply (rounded_gap k (w - m) Rk Hk).
    rewrite Qw. destruct C as [[_ ->]|[_ ->]]; lra.
Qed.

(** A bound that is absent or a whole number of words up to [2^53]. *)
Definition whole_bound (b : float) : Prop :=
  isfinite b = false \/ exists n : Z, (0 <= n <= 2 ^ 53)%Z /\ b = of_int n.

(** Whole numbers up to [2^53] are that far apart. *)
Lemma whole_wide_gap wc mn mx :
  whole_bound mn -> whole_bound mx -> wide_gap wc mn mx.
Proof.
  assert (H : forall n a b : Z,
              (0 <= n <= 2 ^ 53)%Z -> (a < b)%Z ->
              (1 # 2 ^ 53) <= inject_Z b - inject_Z a /\
              inject_Z n * (1 # 2 ^ 53) <= inject_Z b - inject_Z a).
  { intros n a b Hn L.
    assert (A : inject_Z a + 1 <= inject_Z b).
    { change 1 with (inject_Z 1). rewrite <- inject_Z_plus, <- Zle_Qle. lia. }
    assert (B : inject_Z n <= 9007199254740992).
    { change 9007199254740992 with (inject_Z (2 ^ 53)). rewrite <- Zle_Qle. lia. }
    assert (C : 0 <= inject_Z n).
    { change 0 with (inject_Z 0). rewrite <- Zle_Qle. lia. }
    change (1 # 2 ^ 53) with (1 # 9007199254740992). split; lra. }
  intros Wmn Wmx. split; intros m E L.
  - destruct Wmn as [N|(lo & Hlo & ->)].
    { unfold isfinite in N. rewrite E in N. discriminate. }
    destruct (of_int_exact lo Hlo) as (l & El & Ql).
    rewrite El in E. injection E as <-. rewrite Ql in *.
    rewrite <- Zlt_Qlt in L. apply (H lo wc lo Hlo L).
  - destruct Wmx as [N|(hi & Hhi & ->)].
    { unfold isfinite in N. rewrite E in N. discriminate. }
    destruct (of_int_exact hi Hhi) as (h & Eh & Qh).
    rewrite Eh in E. injection E as <-. rewrite Qh in *.
    rewrite <- Zlt_Qlt in L. apply (H hi hi wc Hhi L).
Qed.

(** C10, amended.  The message is empty exactly when no penalty branch
    fires, and the penalty is then exactly 1.0; when a branch fires the
    penalty is at most 1.0, and a penalty below 1.0 always comes with a
    message.  When the word count is at most [2^53] and its gap to the
    bound on whose wrong side it is, is at least [2^-53] of [max(bound, 1)],
    a branch that fires gives a penalty strictly below 1.0: the message is
    then non-empty exactly when the penalty is below 1.0.  That is so
    whenever the bounds that are set are whole numbers from 0 to [2^53].
    For a smaller gap a message can come with a penalty of 1.0. *)
Theorem C10_feedback_and_penalty :
  forall (word_count : Z) (min_words max_words : float),
    let r := compute_length_penalty word_count min_words max_words in
    let fired := under_min word_count min_words || over_max word_count max_words in
    (suggestion r = "" <-> fired = false) /\
    (fired = false -> penalty r = lit 1) /\
    (fired = true -> fleb (penalty r) (lit 1) = true) /\
    (fltb (penalty r) (lit 1) = true -> suggestion r <> "") /\
    ((0 <= word_count <= 2 ^ 53)%Z ->
     wide_gap word_count min_words max_words ->
     (fired = true -> fltb (penalty r) (lit 1) = true) /\
     (suggestion r <> "" <-> fltb (penalty r) (lit 1) = true)) /\
    (whole_bound min_words -> whole_bound max_words ->
     wide_gap word_count min_words max_words).
Proof.
  intros wc mn mx r fired.
  assert (A : suggestion r = "" <-> fired = false).
  { unfold r, fired. rewrite compute_length_penalty_cases.
    destruct (under_min wc mn); [|destruct (over_max wc mx)]; simpl;
      split; intros H; (discriminate H || reflexivity). }
  assert (B : fired = false -> penalty r = lit 1).
  { unfold r, fired. rewrite compute_length_penalty_cases.
    destruct (under_min wc mn); [|destruct (over_max wc mx)]; simpl;
      try discriminate; reflexivity. }
  assert (C : fltb (penalty r) (lit 1) = true -> suggestion r <> "").
  { intros L E. apply A in E. rewrite (B E) in L. vm_compute in L. discriminate. }
  split; [exact A|]. split; [exact B|].
  split; [intros _; apply penalty_bounds|]. split; [exact C|].
  split; [|apply whole_wide_gap].
  intros Hwc G.
  assert (D : fired = true -> fltb (penalty r) (lit 1) = true)
    by (apply wide_fired_below_1; assumption).
  split; [exact D|]. split; [|exact C].
  intros S. apply D. destruct fired; [reflexivity|].
  exfalso. apply S. now apply A.
Qed.

(** Twelve words under a minimum of 50: a message, and a penalty below
    1.0 (it is 0.4). *)
Lemma C10_feedback_and_penalty_witness :
  suggestion (compute_length_penalty 12 (of_int 50) nan) <> "" /\
  fltb (penalty (compute_length_penalty 12 (of_int 50) nan)) (lit 1) = true /\
  val (penalty (compute_length_penalty 12 (of_int 50) nan)) = Fin q04.
Proof.
  assert (H : (0 <= 12 <= 2 ^ 53)%Z) by lia.
  assert (Wmn : whole_bound (of_int 50))
    by (right; exists 50%Z; split; [lia | reflexivity]).
  assert (Wmx : whole_bound nan) by (left; reflexivity).
  destruct (C10_feedback_and_penalty 12 (of_int 50) nan)
    as (_ & _ & _ & _ & W & G).
  destruct (W H (G Wmn Wmx)) as [F I].
  assert (P : fltb (penalty (compute_length_penalty 12 (of_int 50) nan)) (lit 1) = true)
    by (apply F; reflexivity).
  split; [apply I; exact P|]. split; [exact P|]. vm_compute. reflexivity.
Defined.

(** ** The scoring loop *)

(** The turns of the loop one after the other, up to the first that
    raises. *)
Fixpoint map_result {A B : Type} (f : A -> result B) (l : list A)
  : result (list B) :=
  match l with
  | [] => Ok []
  | a :: l' => b <- f a ;; bs <- map_result f l' ;; Ok (b :: bs)
  end.

(** The two sums of the loop, from the scored rows: floating-point sums
    from 0.0, in the order of the rows. *)
Definition weighted_sum_of (scs : list scored) : float :=
  fold_left (fun acc sc => (acc + final sc * its_weight sc)%py) scs (lit 0).

Definition total_weight_of (scs : list scored) : float :=
  fold_left (fun acc sc => (acc + its_weight sc)%py) scs (lit 0).

(** The weighted mean of the final scores, 0 when the weights sum to 0. *)
Definition weighted_mean (scs : list scored) : float :=
  if (total_weight_of scs =? of_int 0)%py then lit 0
  else (weighted_sum_of scs / total_weight_of scs)%py.

(** The sum of the weights of a rubric table. *)
Definition rubric_total_weight (float_of_str : string -> option float)
  (rubric_df : dataframe) : float :=
  fold_left (fun acc r => (acc + weight_of float_of_str r)%py) rubric_df (lit 0).

(** A row can be scored when its two bounds can be read. *)
Definition row_ok (float_of_str : string -> option float) (r : row) : bool :=
  is_ok (bound_of float_of_str r ["MinWords"; "Min Words"])
  && is_ok (bound_of float_of_str r ["MaxWords"; "Max Words"]).

Section Pipeline.

Variable float_repr : float -> string.
Variable float_of_str : string -> option float.
Variable model : option (string -> string -> float).

Let score_row' := score_row float_repr float_of_str model.

Lemma score_row_is_ok t wc r :
  is_ok (score_row' t wc r) = row_ok float_of_str r.
Proof.
  unfold score_row', score_row, row_ok.
  destruct (bound_of float_of_str r ["MinWords"; "Min Words"]); simpl; [|reflexivity].
  destruct (bound_of float_of_str r ["MaxWords"; "Max Words"]); reflexivity.
Qed.

Lemma score_row_weight t wc r sc :
  score_row' t wc r = Ok sc -> its_weight sc = weight_of float_of_str r.
Proof.
  unfold score_row', score_row.
  destruct (bound_of float_of_str r ["MinWords"; "Min Words"]); simpl; [|discriminate].
  destruct (bound_of float_of_str r ["MaxWords"; "Max Words"]); simpl; [|discriminate].
  now intros [= <-].
Qed.

Lemma map_result_is_ok t wc rows :
  is_ok (map_result (score_row' t wc) rows) = forallb (row_ok float_of_str) rows.
Proof.
  induction rows as [|r rows IH]; simpl; [reflexivity|].
  rewrite <- score_row_is_ok with (t := t) (wc := wc), <- IH.
  destruct (score_row' t wc r); simpl; [|reflexivity].
  now destruct (map_result (score_row' t wc) rows).
Qed.

Lemma score_rows_spec t wc rows :
  forall acc ws tw,
    score_rows float_repr float_of_str model t wc rows acc ws tw =
    scs <- map_result (score_row' t wc) rows ;;
    Ok (acc ++ map shown scs,
        fold_left (fun a sc => (a + final sc * its_weight sc)%py) scs ws,
        fold_left (fun a sc => (a + its_weight sc)%py) scs tw).
Proof.
  induction rows as [|r rows IH]; intros acc ws tw; simpl.
  - now rewrite app_nil_r.
  - fold score_row'. destruct (score_row' t wc r) as [sc|e]; simpl; [|reflexivity].
    rewrite IH. destruct (map_result (score_row' t wc) rows) as [scs|e]; simpl;
      [|reflexivity].
    now rewrite <- app_assoc.
Qed.

Lemma score_transcript_spec transcript rubric_df :
  score_transcript float_repr float_of_str model transcript rubric_df =
  let t := preprocess_text transcript in
  let wc := Z.of_nat (List.length (split_ws t)) in
  scs <- map_result (score_row' t wc) rubric_df ;;
  Ok {| overall_score := py_round (weighted_mean scs * of_int 100)%py 2;
        word_count := wc;
        per_criterion := map shown scs |}.
Proof.
  unfold score_transcript. rewrite score_rows_spec. cbv zeta.
  destruct (map_result _ rubric_df); reflexivity.
Qed.

Lemma score_transcript_is_ok transcript rubric_df :
  is_ok (score_transcript float_repr float_of_str model transcript rubric_df)
  = forallb (row_ok float_of_str) rubric_df.
Proof.
  rewrite score_transcript_spec. cbv zeta.
  rewrite <- (map_result_is_ok (preprocess_text transcript)
                (Z.of_nat (List.length (split_ws (preprocess_text transcript))))).
  now destruct (map_result _ rubric_df).
Qed.

Lemma total_weight_of_rubric t wc rubric_df scs :
  map_result (score_row' t wc) rubric_df = Ok scs ->
  total_weight_of scs = rubric_total_weight float_of_str rubric_df.
Proof.
  unfold total_weight_of, rubric_total_weight. generalize (lit 0).
  revert scs. induction rubric_df as [|r rows IH]; intros scs tw; simpl.
  - now intros [= <-].
  - destruct (score_row' t wc r) as [sc|e] eqn:E; simpl; [|discriminate].
    destruct (map_result (score_row' t wc) rows) as [scs'|e]; simpl; [|discriminate].
    intros [= <-]. simpl. rewrite (score_row_weight t wc r sc E). now apply IH.
Qed.

End Pipeline.

(** ** Scoring without the sentence encoder *)

Lemma map_result_Forall {A B : Type} (f : A -> result B) (P : B -> Prop) l :
  (forall a b, f a = Ok b -> P b) ->
  forall bs, map_result f l = Ok bs -> Forall P bs.
Proof.
  intros H. induction l as [|a l IH]; simpl; intros bs.
  - intros [= <-]. constructor.
  - destruct (f a) as [b|e] eqn:E; simpl; [|discriminate].
    destruct (map_result f l) as [bs'|e]; simpl; [|discriminate].
    intros [= <-]. constructor; [exact (H a b E) | now apply IH].
Qed.

Lemma score_row_semantic_without_model float_repr float_of_str t wc r sc :
  score_row float_repr float_of_str None t wc r = Ok sc ->
  val (semantic_score (shown sc)) = Fin (1 # 2).
Proof.
  unfold score_row.
  destruct (bound_of float_of_str r ["MinWords"; "Min Words"]); simpl; [|discriminate].
  destruct (bound_of float_of_str r ["MaxWords"; "Max Words"]); simpl; [|discriminate].
  intros [= <-]. vm_compute. reflexivity.
Qed.

(** C8.  When the encoder could not be loaded ([model] is [None]) the
    semantic score is exactly 0.5 for every transcript and description, and
    scoring a rubric table raises in the same cases as with an encoder, the
    rows whose word bounds cannot be read; in the result every criterion has
    the semantic score 0.5. *)
Theorem C8_model_unavailable :
  forall (float_repr : float -> string) (float_of_str : string -> option float)
         (transcript : string) (description : cell) (rubric_df : dataframe),
    compute_semantic_score float_repr None transcript description = lit (1 # 2) /\
    val (lit (1 # 2)) = Fin (1 # 2) /\
    is_ok (score_transcript float_repr float_of_str None transcript rubric_df)
    = forallb (row_ok float_of_str) rubric_df /\
    (forall cosine,
       is_ok (score_transcript float_repr float_of_str None transcript rubric_df)
       = is_ok (score_transcript float_repr float_of_str (Some cosine)
                                 transcript rubric_df)) /\
    match score_transcript float_repr float_of_str None transcript rubric_df with
    | Ok res =>
        Forall (fun c => val (semantic_score c) = Fin (1 # 2)) (per_criterion res)
    | Raise _ => True
    end.
Proof.
  intros float_repr float_of_str transcript description rubric_df.
  split; [reflexivity|]. split; [exact rnd_half|].
  split; [apply score_transcript_is_ok|]. split.
  - intros cosine. now rewrite !score_transcript_is_ok.
  - rewrite score_transcript_spec. cbv zeta.
    destruct (map_result _ rubric_df) as [scs|e] eqn:E; simpl; [|exact I].
    apply Forall_map. revert scs E. apply map_result_Forall.
    intros r sc. apply score_row_semantic_without_model.
Qed.

(** ** The overall score *)

Local Open Scope Q_scope.

(** The encoder, when there is one, returns similarities between -1 and 1. *)
Definition model_bounded (model : option (string -> string -> float)) : Prop :=
  forall cosine, model = Some cosine ->
    forall a b, exists s, val (cosine a b) = Fin s /\ - (1) <= s <= 1.

(** A weight that is finite and not negative. *)
Definition weight_ok (w : float) : Prop := exists q, val w = Fin q /\ 0 <= q.

Lemma semantic_unit float_repr model t d :
  model_bounded model -> unit_float (compute_semantic_score float_repr model t d).
Proof.
  intros M. unfold compute_semantic_score. destruct model as [cosine|];
    [|apply unit_float_half].
  destruct (M cosine eq_refl t (py_str float_repr d)) as (s & E & R).
  destruct (rnd_between 0 2 (s + 1) rnd_0 rnd_2) as (x & Ex & Rx); [lra|].
  assert (E1 : val (cosine t (py_str float_repr d) + of_int 1)%py = Fin x).
  { rewrite (val_fadd _ _ s 1 E); [exact Ex | exact rnd_1]. }
  destruct (rnd_between 0 1 (x / 2) rnd_0 rnd_1) as (y & Ey & Ry).
  { split; [apply Qle_shift_div_l | apply Qle_shift_div_r]; lra. }
  exists y. split; [|exact Ry].
  rewrite (val_fdiv _ _ x 2 E1); [exact Ey | exact rnd_2 | lra].
Qed.

Lemma half_of_unit k :
  unit_float k -> exists a, val (lit (1 # 2) * k)%py = Fin a /\ 0 <= a <= 1 # 2.
Proof.
  intros (q & E & R).
  destruct (rnd_between 0 (1 # 2) ((1 # 2) * q) rnd_0 rnd_half) as (a & Ea & Ra); [lra|].
  exists a. split; [|exact Ra]. rewrite (val_fmul _ _ (1 # 2) q); [exact Ea | exact rnd_half | exact E].
Qed.

Lemma base_score_unit k s :
  unit_float k -> unit_float s ->
  unit_float (lit (1 # 2) * k + lit (1 # 2) * s)%py.
Proof.
  intros Hk Hs. destruct (half_of_unit k Hk) as (a & Ea & Ra).
  destruct (half_of_unit s Hs) as (b & Eb & Rb).
  destruct (rnd_between 0 1 (a + b) rnd_0 rnd_1) as (c & Ec & Rc); [lra|].
  exists c. split; [|exact Rc]. now rewrite (val_fadd _ _ a b Ea Eb).
Qed.

Lemma fmul_unit x y : unit_float x -> unit_float y -> unit_float (x * y)%py.
Proof.
  intros (a & Ea & Ra) (b & Eb & Rb).
  destruct (rnd_between 0 1 (a * b) rnd_0 rnd_1) as (c & Ec & Rc); [nra|].
  exists c. split; [|exact Rc]. now rewrite (val_fmul _ _ a b Ea Eb).
Qed.

Lemma penalty_unit wc mn mx : unit_float (penalty (compute_length_penalty wc mn mx)).
Proof.
  destruct (penalty_range wc mn mx) as (p & E & R). exists p.
  split; [exact E|]. unfold q04 in R. lra.
Qed.

Lemma keyword_score_unit float_repr t k :
  unit_float (kw_score (compute_keyword_score float_repr t k)).
Proof.
  unfold compute_keyword_score. rewrite match_keywords_of. simpl.
  destruct (Nat.eqb_spec (List.length (keywords_of float_repr k)) 0) as [E|N].
  - apply unit_float_lit_1.
  - apply int_truediv_unit; [|lia].
    pose proof (filter_length_le (fun kw => contains kw (lower t))
                                 (keywords_of float_repr k)). lia.
Qed.

Lemma score_row_final_unit float_repr float_of_str model t wc r sc :
  model_bounded model ->
  score_row float_repr float_of_str model t wc r = Ok sc -> unit_float (final sc).
Proof.
  intros M. unfold score_row.
  destruct (bound_of float_of_str r ["MinWords"; "Min Words"]); simpl; [|discriminate].
  destruct (bound_of float_of_str r ["MaxWords"; "Max Words"]); simpl; [|discriminate].
  intros [= <-]. simpl. apply fmul_unit; [|apply penalty_unit].
  apply base_score_unit; [apply keyword_score_unit | now apply semantic_unit].
Qed.

(** The two sums of the loop: the weighted sum is not negative and not above
    the sum of the weights (either may have overflowed to infinity). *)
Definition sums_ordered (ws tw : float) : Prop :=
  xle (Fin 0) (val ws) /\ xle (val ws) (val tw).

Lemma sums_ordered_step ws tw f w :
  sums_ordered ws tw -> unit_float f -> weight_ok w ->
  sums_ordered (ws + f * w)%py (tw + w)%py.
Proof.
  intros [P L] (a & Ea & Ra) (q & Eq & Rq).
  destruct (rnd_between 0 q (a * q) rnd_0 (rnd_val w q Eq)) as (x & Ex & Rx); [nra|].
  assert (Ew : val (f * w)%py = Fin x) by now rewrite (val_fmul _ _ a q Ea Eq).
  unfold sums_ordered, fadd. rewrite Ew, Eq.
  destruct (val ws) as [s| | |], (val tw) as [t| | |]; simpl in P, L; try contradiction.
  - split; [apply rnd_ge; [exact rnd_0 | lra] | apply rnd_mono; lra].
  - pose proof (rnd_ge 0 (s + x) rnd_0) as G. cbn [val of_Q inf].
    split; [apply G; lra|]. destruct (rnd (s + x)); simpl in *; try exact I.
    apply G. lra.
  - split; exact I.
Qed.

Lemma sums_ordered_fold float_repr float_of_str model t wc rows :
  model_bounded model ->
  Forall (fun r => weight_ok (weight_of float_of_str r)) rows ->
  forall scs ws tw,
    map_result (score_row float_repr float_of_str model t wc) rows = Ok scs ->
    sums_ordered ws tw ->
    sums_ordered
      (fold_left (fun a sc => (a + final sc * its_weight sc)%py) scs ws)
      (fold_left (fun a sc => (a + its_weight sc)%py) scs tw).
Proof.
  intros M. induction 1 as [|r rows W _ IH]; intros scs ws tw; simpl.
  - now intros [= <-].
  - destruct (score_row float_repr float_of_str model t wc r) as [sc|e] eqn:E;
      simpl; [|discriminate].
    destruct (map_result _ rows) as [scs'|e]; simpl; [|discriminate].
    intros [= <-] S. simpl. apply IH; [reflexivity|].
    apply sums_ordered_step; [exact S | exact (score_row_final_unit _ _ _ _ _ _ _ M E) |].
    now rewrite (score_row_weight _ _ _ _ _ _ _ E).
Qed.

Lemma weighted_mean_unit ws tw :
  sums_ordered ws tw -> isfinite tw = true ->
  unit_float (if (tw =? of_int 0)%py then lit 0 else (ws / tw)%py).
Proof.
  intros [P L] F. destruct (isfinite_val tw F) as [b Eb].
  unfold feqb. rewrite Eb, val_of_int. change (inject_Z 0) with 0. rewrite rnd_0.
  cbn [xeqb]. destruct (Qeq_bool b 0) eqn:Z; [apply unit_float_lit_0|].
  apply Qeq_bool_neq in Z. rewrite Eb in L.
  destruct (val ws) as [a| | |] eqn:Ea; simpl in P, L; try contradiction.
  destruct (rnd_between 0 1 (a / b) rnd_0 rnd_1) as (c & Ec & Rc).
  { split; [apply Qle_shift_div_l | apply Qle_shift_div_r]; lra. }
  exists c. split; [|exact Rc]. now rewrite (val_fdiv _ _ a b Ea Eb Z).
Qed.

(** A score between 0 and 1, scaled by 100 and rounded to two decimals, lies
    between 0 and 100. *)
Lemma percentage_range x :
  unit_float x ->
  exists q, val (py_round (x * of_int 100)%py 2) = Fin q /\ 0 <= q <= 100.
Proof.
  intros (a & Ea & Ra).
  destruct (rnd_between 0 100 (a * 100) rnd_0 rnd_100) as (y & Ey & Ry); [lra|].
  assert (E : val (x * of_int 100)%py = Fin y).
  { rewrite (val_fmul _ _ a 100 Ea); [exact Ey | exact rnd_100]. }
  unfold py_round. rewrite E. cbn [val of_Q].
  change (inject_Z (10 ^ 2)) with 100.
  assert (N : (0 <= rne (y * 100) <= 10000)%Z).
  { split.
    - rewrite <- (rne_Z 0). apply rne_mono. change (inject_Z 0) with 0. lra.
    - rewrite <- (rne_Z 10000). apply rne_mono. change (inject_Z 10000) with 10000. lra. }
  apply rnd_between; [exact rnd_0 | exact rnd_100 |].
  assert (A : 0 <= inject_Z (rne (y * 100)))
    by (change 0 with (inject_Z 0); rewrite <- Zle_Qle; lia).
  assert (B : inject_Z (rne (y * 100)) <= 10000)
    by (change 10000 with (inject_Z 10000); rewrite <- Zle_Qle; lia).
  split; [apply Qle_shift_div_l | apply Qle_shift_div_r]; lra.
Qed.

Lemma percentage_of_zero : val (py_round (lit 0 * of_int 100)%py 2) = Fin 0.
Proof. vm_compute. reflexivity. Qed.

(** Two criteria, the first of weight 2 and the second of weight -1. *)
Definition rubric_negative_weight : dataframe :=
  [ [("Criterion", CStr "A"); ("Keywords", CStr "python"); ("Weight", CNum (of_int 2))];
    [("Criterion", CStr "B"); ("Keywords", CStr "java"); ("Weight", CNum (of_int (-1)))] ].

(** The rows of a table are mappings: no label occurs twice in a row. *)
Definition distinct_labels (rubric_df : dataframe) : Prop :=
  Forall (fun r => NoDup (map fst r)) rubric_df.

Definition description_columns : list string :=
  ["Description"; "Criteria Description"; "Detail"; "Details"].

Lemma score_row_final float_repr float_of_str model t wc r sc :
  score_row float_repr float_of_str model t wc r = Ok sc ->
  exists min_words max_words,
    bound_of float_of_str r ["MinWords"; "Min Words"] = Ok min_words /\
    bound_of float_of_str r ["MaxWords"; "Max Words"] = Ok max_words /\
    final sc
    = ((lit (1 # 2)
        * kw_score (compute_keyword_score float_repr t
                      (_get_first_existing r keyword_columns))
        + lit (1 # 2)
          * compute_semantic_score float_repr model t
              (_get_first_existing r description_columns))
       * penalty (compute_length_penalty wc min_words max_words))%py /\
    its_weight sc = weight_of float_of_str r /\
    final_score_0_1 (shown sc) = py_round (final sc) 3 /\
    weight (shown sc) = weight_of float_of_str r.
Proof.
  unfold score_row.
  destruct (bound_of float_of_str r ["MinWords"; "Min Words"]) as [mn|];
    simpl; [|discriminate].
  destruct (bound_of float_of_str r ["MaxWords"; "Max Words"]) as [mx|];
    simpl; [|discriminate].
  intros [= <-]. exists mn, mx. repeat split.
Qed.

(** An encoder for which every two sentences have the similarity 0.5. *)
Definition encoder_half : option (string -> string -> float) :=
  Some (fun _ _ => lit (1 # 2)).

(** Two criteria of weights 2 and 1. *)
Definition rubric_two_criteria : dataframe :=
  [ [("Criterion", CStr "A"); ("Keywords", CStr "python, java");
     ("Weight", CNum (of_int 2))];
    [("Criterion", CStr "B"); ("Keywords", CStr "python");
     ("Weight", CNum (of_int 1))] ].

(** C3, as stated, fails: without an encoder, the transcript "python" scores
    0.75 on the first criterion and 0.25 on the second, the weighted sum is
    1.25 and the sum of the weights 1: the overall score is 125. *)
Lemma C3_counterexample :
  exists res,
    score_transcript unused_repr unused_parse None "python" rubric_negative_weight
    = Ok res /\
    val (overall_score res) = Fin 125 /\
    fleb (overall_score res) (lit 100) = false.
Proof.
  destruct (score_transcript unused_repr unused_parse None "python"
              rubric_negative_weight) as [res|e] eqn:E.
  - exists res. split; [reflexivity|].
    vm_compute in E. injection E as <-. vm_compute. split; reflexivity.
  - vm_compute in E. discriminate E.
Qed.

(** C3, amended.  On a table whose rows have distinct labels, scoring
    returns when the word bounds of every row can be read, after the loop
    has scored every row.  The final score of a row is the keyword score
    and the semantic score in equal parts, times the length penalty, not
    rounded, and its weight the weight of the row.  The overall score is
    the weighted mean of these final scores (the floating-point sum of
    [final * weight] over the sum of the weights, 0 when that sum is 0),
    times 100, rounded to two decimals.  It is 0 when the weights sum to 0,
    so for an empty table.  It lies between 0 and 100 when every weight is
    finite and not negative, their sum is finite, and the encoder, if any,
    returns similarities between -1 and 1. *)
Theorem C3_overall_score :
  forall (float_repr : float -> string) (float_of_str : string -> option float)
         (model : option (string -> string -> float))
         (transcript : string) (rubric_df : dataframe),
    distinct_labels rubric_df ->
    let t := preprocess_text transcript in
    let wc := Z.of_nat (List.length (split_ws t)) in
    score_transcript float_repr float_of_str model transcript rubric_df =
      (scs <- map_result (score_row float_repr float_of_str model t wc) rubric_df ;;
       Ok {| overall_score := py_round (weighted_mean scs * of_int 100)%py 2;
             word_count := wc;
             per_criterion := map shown scs |}) /\
    (forall r sc,
       score_row float_repr float_of_str model t wc r = Ok sc ->
       exists min_words max_words,
         bound_of float_of_str r ["MinWords"; "Min Words"] = Ok min_words /\
         bound_of float_of_str r ["MaxWords"; "Max Words"] = Ok max_words /\
         final sc
         = ((lit (1 # 2)
             * kw_score (compute_keyword_score float_repr t
                           (_get_first_existing r keyword_columns))
             + lit (1 # 2)
               * compute_semantic_score float_repr model t
                   (_get_first_existing r description_columns))
            * penalty (compute_length_penalty wc min_words max_words))%py /\
         its_weight sc = weight_of float_of_str r /\
         final_score_0_1 (shown sc) = py_round (final sc) 3 /\
         weight (shown sc) = weight_of float_of_str r) /\
    is_ok (score_transcript float_repr float_of_str model transcript rubric_df)
    = forallb (row_ok float_of_str) rubric_df /\
    forall res,
      score_transcript float_repr float_of_str model transcript rubric_df = Ok res ->
      ((rubric_total_weight float_of_str rubric_df =? of_int 0)%py = true ->
       val (overall_score res) = Fin 0) /\
      (rubric_df = [] -> val (overall_score res) = Fin 0) /\
      (model_bounded model ->
       Forall (fun r => weight_ok (weight_of float_of_str r)) rubric_df ->
       isfinite (rubric_total_weight float_of_str rubric_df) = true ->
       exists q, val (overall_score res) = Fin q /\ 0 <= q <= 100).
Proof.
  intros float_repr float_of_str model transcript rubric_df _ t wc.
  split; [apply score_transcript_spec|].
  split; [intros r sc; apply score_row_final|].
  split; [apply score_transcript_is_ok|].
  intros res. rewrite score_transcript_spec. cbv zeta. fold t. fold wc.
  destruct (map_result _ rubric_df) as [scs|e] eqn:E; simpl; [|discriminate].
  intros [= <-]. simpl.
  pose proof (total_weight_of_rubric float_repr float_of_str model t wc rubric_df scs E)
    as T.
  assert (Z : (rubric_total_weight float_of_str rubric_df =? of_int 0)%py = true ->
              val (py_round (weighted_mean scs * of_int 100)%py 2) = Fin 0).
  { intros H. unfold weighted_mean. rewrite T, H. exact percentage_of_zero. }
  split; [exact Z|]. split.
  - intros ->. apply Z. reflexivity.
  - intros M W F. apply percentage_range. unfold weighted_mean.
    rewrite <- T in F. apply weighted_mean_unit; [|exact F].
    apply (sums_ordered_fold float_repr float_of_str model t wc rubric_df M W scs
             (lit 0) (lit 0) E).
    split; simpl; lra.
Qed.

(** With the encoder of similarity 0.5 the semantic score is 0.75; the
    transcript "python" has the final scores 0.625 and 0.875, the weighted
    mean 2.125 / 3 and the overall score 70.83. *)
Lemma C3_overall_score_witness :
  match score_transcript unused_repr unused_parse encoder_half "python"
          rubric_two_criteria with
  | Ok res =>
      overall_score res = lit (7083 # 100) /\
      map (fun c => val (final_score_0_1 c)) (per_criterion res)
      = [Fin (5 # 8); Fin (7 # 8)] /\
      exists q, val (overall_score res) = Fin q /\ 0 <= q <= 100
  | Raise _ => False
  end.
Proof.
  destruct (score_transcript _ _ _ _ _) as [res|e] eqn:E.
  - split; [|split].
    + vm_compute in E. injection E as <-. apply float_ext. vm_compute. reflexivity.
    + vm_compute in E. injection E as <-. vm_compute. reflexivity.
    + refine (proj2 (proj2 (proj2 (proj2 (proj2
                (C3_overall_score unused_repr unused_parse encoder_half "python"
                   rubric_two_criteria _))) res E)) _ _ _).
      * repeat constructor; simpl; intuition discriminate.
      * intros cosine [= <-] a b. exists (1 # 2).
        split; [vm_compute; reflexivity | split; discriminate].
      * repeat constructor;
          [exists 2 | exists 1]; (split; [vm_compute; reflexivity | discriminate]).
      * vm_compute. reflexivity.
  - vm_compute in E. discriminate E.
Defined.

(* ================================================================== *)
(** * Part 6: further properties of the code *)
(* ================================================================== *)

(** ** Words and normalisation *)

(** [sep.join(l)]. *)
Fixpoint join (sep : string) (l : list string) : string :=
  match l with
  | [] => ""
  | x :: l' =>
      match l' with
      | [] => x
      | _ => x ++ sep ++ join sep l'
      end
  end.

Lemma split_ws_from_replace a b s :
  isspace a = true -> isspace b = true ->
  forall w, split_ws_from w (replace_char a b s) = split_ws_from w s.
Proof.
  intros Ha Hb. induction s as [|c s IH]; intros w; simpl; [reflexivity|].
  destruct (Ascii.eqb c a) eqn:E.
  - apply Ascii.eqb_eq in E. subst c. rewrite Ha, Hb. now rewrite !IH.
  - destruct (isspace c); now rewrite !IH.
Qed.

Lemma split_ws_lstrip s : split_ws (lstrip s) = split_ws s.
Proof.
  unfold split_ws. induction s as [|c s IH]; simpl; [reflexivity|].
  destruct (isspace c) eqn:E; [exact IH|]. simpl. now rewrite E.
Qed.

Lemma split_ws_from_rstrip s : forall w, split_ws_from w (rstrip s) = split_ws_from w s.
Proof.
  induction s as [|c s IH]; intros w; simpl; [reflexivity|].
  destruct (rstrip s) as [|d r] eqn:R.
  - destruct (isspace c) eqn:E; simpl.
    + rewrite <- (IH EmptyString). simpl. now destruct w.
    + rewrite E. now rewrite <- IH.
  - rewrite <- R in IH |- *. simpl. destruct (isspace c); now rewrite !IH.
Qed.

Lemma split_ws_from_sub_ws_runs s :
  forall w b, (b = true -> w = "") ->
              split_ws_from w (sub_ws_runs b s) = split_ws_from w s.
Proof.
  induction s as [|c s IH]; intros w b H; simpl; [reflexivity|].
  destruct (isspace c) eqn:E.
  - destruct b.
    + rewrite (H eq_refl). now apply IH.
    + simpl. destruct w; now rewrite IH.
  - simpl. rewrite E. apply IH. discriminate.
Qed.

Lemma split_ws_preprocess s : split_ws (preprocess_text s) = split_ws s.
Proof.
  unfold preprocess_text, split_ws.
  rewrite split_ws_from_sub_ws_runs by discriminate.
  rewrite split_ws_from_replace by reflexivity.
  unfold strip. rewrite split_ws_from_rstrip. apply split_ws_lstrip.
Qed.

Lemma split_ws_from_word w s : w <> "" -> split_ws_from w s <> [].
Proof.
  revert w. induction s as [|c s IH]; intros w H; simpl.
  - now destruct w.
  - destruct (isspace c).
    + now destruct w.
    + apply IH. now destruct w.
Qed.

Lemma append_assoc (a b c : string) : ((a ++ b) ++ c = a ++ (b ++ c))%string.
Proof. induction a as [|x a IH]; simpl; [reflexivity | now rewrite IH]. Qed.

Lemma join_cons sep x l : l <> [] -> join sep (x :: l) = (x ++ sep ++ join sep l)%string.
Proof. destruct l; [contradiction | reflexivity]. Qed.

(** Replacing the runs of whitespace of a string with no trailing whitespace
    joins its words with single spaces: after a word being read ([w]), and
    at the start of a word. *)
Lemma sub_ws_runs_join s :
  rstrip s = s ->
  (forall w, w <> "" ->
     join " " (split_ws_from w s) = (w ++ sub_ws_runs false s)%string) /\
  (s <> "" ->
     split_ws_from "" s <> [] /\
     join " " (split_ws_from "" s) = sub_ws_runs true s).
Proof.
  induction s as [|c s IH]; intros R.
  - split; [|contradiction]. intros w H. simpl. destruct w as [|a w]; [contradiction|].
    simpl. f_equal. clear. induction w as [|x w IH]; simpl; [reflexivity | now f_equal].
  - apply rstrip_fixed_cons in R. destruct R as [R E].
    destruct (IH R) as [S T]. simpl. destruct (isspace c) eqn:C.
    + assert (N : s <> "") by (intros ->; specialize (E eq_refl); discriminate).
      destruct (T N) as [T1 T2]. split.
      * intros w H. destruct w as [|a w]; [contradiction|].
        rewrite join_cons by exact T1. now rewrite T2.
      * intros _. split; assumption.
    + split.
      * intros w H. rewrite S by now destruct w.
        rewrite append_assoc. reflexivity.
      * intros _. split; [apply split_ws_from_word; discriminate|].
        rewrite (S (String c "")) by discriminate. reflexivity.
Qed.

Lemma stripped_shape s :
  let u := replace_char newline space (strip s) in
  rstrip u = u /\ (u = "" \/ exists c r, u = String c r /\ isspace c = false).
Proof.
  intros u. split.
  - unfold u. rewrite rstrip_replace_char by reflexivity.
    unfold strip. now rewrite rstrip_idem.
  - unfold u. destruct (strip_head s) as [->|(c & r & -> & C)]; [now left|].
    right. simpl. destruct (Ascii.eqb c newline) eqn:N.
    + apply eqb_newline_isspace in N. congruence.
    + eauto.
Qed.

Lemma preprocess_text_join s : preprocess_text s = join " " (split_ws s).
Proof.
  pose proof (stripped_shape s) as [R H]. cbv zeta in R, H.
  assert (W : split_ws s = split_ws_from "" (replace_char newline space (strip s))).
  { rewrite split_ws_from_replace by reflexivity.
    unfold strip. rewrite split_ws_from_rstrip. symmetry. apply split_ws_lstrip. }
  rewrite W. unfold preprocess_text.
  destruct H as [->|(c & r & E & C)]; [reflexivity|].
  rewrite E in *. destruct (sub_ws_runs_join _ R) as [_ T].
  destruct T as [_ T]; [discriminate|]. rewrite T. simpl. now rewrite C.
Qed.

(** X1.  Normalising a text joins its words (the maximal runs of
    characters that are not whitespace) with single spaces:
    [preprocess_text(s) == " ".join(s.split())]. *)
Theorem X1_preprocess_text_joins_words :
  forall s : string, preprocess_text s = join " " (split_ws s).
Proof. exact preprocess_text_join. Qed.

Lemma split_ws_empty s : split_ws s = [] <-> all_space s = true.
Proof.
  unfold split_ws. induction s as [|c s IH]; simpl; [tauto|].
  destruct (isspace c); simpl; [exact IH|].
  split; [|discriminate]. intros H.
  now apply split_ws_from_word in H.
Qed.

(** X2.  The result of scoring depends on the transcript only through its
    sequence of words: two transcripts with the same words, whatever the
    whitespace between and around them, get the same result. *)
Theorem X2_score_depends_on_words :
  forall (float_repr : float -> string) (float_of_str : string -> option float)
         (model : option (string -> string -> float))
         (t1 t2 : string) (rubric_df : dataframe),
    split_ws t1 = split_ws t2 ->
    score_transcript float_repr float_of_str model t1 rubric_df
    = score_transcript float_repr float_of_str model t2 rubric_df.
Proof.
  intros float_repr float_of_str model t1 t2 rubric_df H.
  unfold score_transcript. now rewrite !preprocess_text_join, H.
Qed.

Lemma X2_score_depends_on_words_witness :
  score_transcript unused_repr unused_parse None ("I  know" ++ String newline "python ") rubric_negative_weight
  = score_transcript unused_repr unused_parse None "I know python"
                     rubric_negative_weight.
Proof.
  apply X2_score_depends_on_words. reflexivity.
Defined.

Lemma word_count_spec float_repr float_of_str model transcript rubric_df res :
  score_transcript float_repr float_of_str model transcript rubric_df = Ok res ->
  word_count res = Z.of_nat (List.length (split_ws transcript)) /\
  (word_count res = 0%Z <-> all_space transcript = true).
Proof.
  rewrite score_transcript_spec. cbv zeta.
  destruct (map_result _ rubric_df); simpl; [|discriminate].
  intros [= <-]. simpl. rewrite split_ws_preprocess. split; [reflexivity|].
  rewrite <- split_ws_empty. destruct (split_ws transcript); simpl.
  - tauto.
  - split; [lia | discriminate].
Qed.

(** X3.  The word count that scoring reports is the number of words of the
    transcript as given, before normalisation, and it is 0 exactly when the
    transcript is empty or all whitespace. *)
Theorem X3_word_count :
  forall (float_repr : float -> string) (float_of_str : string -> option float)
         (model : option (string -> string -> float))
         (transcript : string) (rubric_df : dataframe) (res : scoring_result),
    score_transcript float_repr float_of_str model transcript rubric_df = Ok res ->
    word_count res = Z.of_nat (List.length (split_ws transcript)) /\
    (word_count res = 0%Z <-> all_space transcript = true).
Proof.
  intros float_repr float_of_str model transcript rubric_df res.
  apply word_count_spec.
Qed.

Lemma X3_word_count_witness :
  exists res,
    score_transcript unused_repr unused_parse None ("I  know" ++ String newline "python ") rubric_negative_weight = Ok res /\
    word_count res = 3%Z.
Proof.
  destruct (score_transcript unused_repr unused_parse None ("I  know" ++ String newline "python ") rubric_negative_weight) as [res|e] eqn:E.
  - exists res. split; [reflexivity|].
    exact (proj1 (X3_word_count _ _ _ _ _ res E)).
  - vm_compute in E. discriminate E.
Defined.

(** ** The guard of the application (app.py) *)

Section App.

Variable float_repr : float -> string.
Variable float_of_str : string -> option float.
Variable model : option (string -> string -> float).

(** app.py, lines 66-71: pressing "Score" warns and returns ([None]) when
    the text is blank, and scores it otherwise. *)
Definition score_button (transcript_input : string) (rubric_df : dataframe)
  : option (result scoring_result) :=
  if negb (nonempty (strip transcript_input)) then None
  else Some (score_transcript float_repr float_of_str model
                              transcript_input rubric_df).

End App.

Lemma nonempty_false s : nonempty s = false <-> s = "".
Proof. destruct s; simpl; split; congruence. Qed.

(** X4.  The application refuses exactly the transcripts that are empty or
    all whitespace, and a result it shows never has a word count of 0. *)
Theorem X4_score_button_guard :
  forall (float_repr : float -> string) (float_of_str : string -> option float)
         (model : option (string -> string -> float))
         (transcript_input : string) (rubric_df : dataframe),
    (score_button float_repr float_of_str model transcript_input rubric_df = None
     <-> all_space transcript_input = true) /\
    (forall res,
       score_button float_repr float_of_str model transcript_input rubric_df
       = Some (Ok res) -> (1 <= word_count res)%Z).
Proof.
  intros float_repr float_of_str model t df. unfold score_button.
  destruct (nonempty (strip t)) eqn:N; simpl.
  - assert (A : all_space t = false).
    { destruct (all_space t) eqn:A; [|reflexivity].
      apply strip_empty in A. rewrite A in N. discriminate. }
    split; [rewrite A; split; discriminate|].
    intros res [= E].
    destruct (word_count_spec float_repr float_of_str model t df res E) as [W Z].
    destruct (Z.eq_dec (word_count res) 0) as [Z0|NZ].
    + apply Z in Z0. congruence.
    + rewrite W in *. lia.
  - apply nonempty_false, strip_empty in N. split; [tauto | discriminate].
Qed.

Lemma X4_score_button_guard_witness :
  score_button unused_repr unused_parse None "   " [] = None.
Proof.
  apply (proj1 (X4_score_button_guard unused_repr unused_parse None "   " [])).
  reflexivity.
Defined.

(** ** Keywords *)

Lemma isspace_lower_char c : isspace (lower_char c) = isspace c.
Proof. destruct c as [[] [] [] [] [] [] [] []]; reflexivity. Qed.

Lemma lower_char_idem c : lower_char (lower_char c) = lower_char c.
Proof. destruct c as [[] [] [] [] [] [] [] []]; reflexivity. Qed.

Lemma lower_char_comma c : Ascii.eqb (lower_char c) comma = Ascii.eqb c comma.
Proof. destruct c as [[] [] [] [] [] [] [] []]; reflexivity. Qed.

Lemma lower_idem s : lower (lower s) = lower s.
Proof.
  induction s as [|c s IH]; simpl; [reflexivity|].
  now rewrite lower_char_idem, IH.
Qed.

Lemma lower_append s t : lower (s ++ t) = (lower s ++ lower t)%string.
Proof. induction s as [|c s IH]; simpl; [reflexivity | now rewrite IH]. Qed.

Lemma lstrip_lower s : lstrip (lower s) = lower (lstrip s).
Proof.
  induction s as [|c s IH]; simpl; [reflexivity|].
  rewrite isspace_lower_char. now destruct (isspace c).
Qed.

Lemma rstrip_lower s : rstrip (lower s) = lower (rstrip s).
Proof.
  induction s as [|c s IH]; simpl; [reflexivity|].
  rewrite IH, isspace_lower_char.
  destruct (rstrip s); simpl; [now destruct (isspace c) | reflexivity].
Qed.

Lemma strip_lower s : strip (lower s) = lower (strip s).
Proof. unfold strip. now rewrite lstrip_lower, rstrip_lower. Qed.

Lemma lstrip_fixed c s : isspace c = false -> lstrip (String c s) = String c s.
Proof. intros E. simpl. now rewrite E. Qed.

Lemma strip_idem s : strip (strip s) = strip s.
Proof.
  destruct (strip_head s) as [E|(c & r & E & C)].
  - now rewrite E.
  - unfold strip at 1. rewrite E, (lstrip_fixed c r C), <- E.
    unfold strip. apply rstrip_idem.
Qed.

(** The character occurs in the string. *)
Fixpoint has_char (a : ascii) (s : string) : bool :=
  match s with
  | EmptyString => false
  | String c s' => Ascii.eqb c a || has_char a s'
  end.

Lemma has_char_append a s t : has_char a (s ++ t) = has_char a s || has_char a t.
Proof.
  induction s as [|c s IH]; simpl; [reflexivity|]. now rewrite IH, orb_assoc.
Qed.

Lemma split_on_from_no_sep sep s :
  forall w k, has_char sep w = false -> In k (split_on_from sep w s) ->
              has_char sep k = false.
Proof.
  induction s as [|c s IH]; intros w k W; simpl.
  - now intros [<-|[]].
  - destruct (Ascii.eqb c sep) eqn:E.
    + intros [<-|H]; [exact W | now apply (IH EmptyString)].
    + apply IH. rewrite has_char_append, W. simpl. now rewrite E.
Qed.

Lemma has_char_lstrip a s : has_char a s = false -> has_char a (lstrip s) = false.
Proof.
  induction s as [|c s IH]; simpl; [reflexivity|].
  intros H. apply orb_false_iff in H. destruct (isspace c); [tauto|].
  simpl. apply orb_false_iff. exact H.
Qed.

Lemma has_char_rstrip a s : has_char a s = false -> has_char a (rstrip s) = false.
Proof.
  induction s as [|c s IH]; simpl; [reflexivity|].
  intros H. apply orb_false_iff in H. destruct H as [H1 H2]. specialize (IH H2).
  destruct (rstrip s); [destruct (isspace c)|]; simpl in *; rewrite ?H1, ?IH; reflexivity.
Qed.

Lemma has_char_lower_comma s : has_char comma (lower s) = has_char comma s.
Proof.
  induction s as [|c s IH]; simpl; [reflexivity|]. now rewrite lower_char_comma, IH.
Qed.

(** X5.  Every keyword read from a rubric cell is non-empty, has no
    whitespace at either end, is in lower case and contains no comma. *)
Theorem X5_keywords_well_formed :
  forall (float_repr : float -> string) (keyword_str : cell) (kw : string),
    In kw (keywords_of float_repr keyword_str) ->
    kw <> "" /\ strip kw = kw /\ lower kw = kw /\ has_char comma kw = false.
Proof.
  intros float_repr keyword_str kw. unfold keywords_of.
  rewrite in_map_iff. intros (k & <- & H). apply filter_In in H. destruct H as [H N].
  repeat split.
  - rewrite <- (nonempty_lower (strip k)) in N. now destruct (lower (strip k)).
  - now rewrite strip_lower, strip_idem.
  - apply lower_idem.
  - rewrite has_char_lower_comma. unfold strip.
    apply has_char_rstrip, has_char_lstrip.
    now apply (split_on_from_no_sep comma (py_str float_repr keyword_str) EmptyString).
Qed.

Lemma X5_keywords_well_formed_witness :
  strip "machine learning" = "machine learning".
Proof.
  refine (proj1 (proj2 (X5_keywords_well_formed unused_repr
            (CStr " Python, ,Machine Learning ,") "machine learning" _))).
  vm_compute. auto.
Defined.

(** ** Keywords and longer transcripts *)

Lemma fin_neq a b : ~ a == b -> Fin a <> Fin b.
Proof. intros H [= E]. apply H. now rewrite E. Qed.

Lemma prefix_append sub s t : prefix sub s = true -> prefix sub (s ++ t) = true.
Proof.
  revert s. induction sub as [|c sub IH]; intros s; [now destruct (s ++ t)%string|].
  destruct s as [|d s]; simpl; [discriminate|].
  destruct (Ascii.ascii_dec c d); [apply IH | discriminate].
Qed.

Lemma contains_append_r sub s t : contains sub s = true -> contains sub (s ++ t) = true.
Proof.
  induction s as [|c s IH].
  - simpl. rewrite orb_false_r. intros H.
    destruct sub; [now destruct t | discriminate].
  - cbn [contains append]. rewrite !orb_true_iff. intros [H|H].
    + left. exact (prefix_append sub (String c s) t H).
    + right. now apply IH.
Qed.

Lemma contains_append_l sub s t : contains sub t = true -> contains sub (s ++ t) = true.
Proof.
  intros H. induction s as [|c s IH]; [exact H|].
  cbn [contains append]. rewrite IH. apply orb_true_r.
Qed.

Lemma xle_xleb x y : xle x y -> xleb x y = true.
Proof.
  destruct x, y; simpl; try tauto. apply Qle_bool_iff.
Qed.

Lemma filter_length_mono {A : Type} (f g : A -> bool) l :
  (forall a, f a = true -> g a = true) ->
  (List.length (filter f l) <= List.length (filter g l))%nat.
Proof.
  intros H. induction l as [|a l IH]; simpl; [lia|].
  destruct (f a) eqn:F.
  - rewrite (H a F). simpl. lia.
  - destruct (g a); simpl; lia.
Qed.

Lemma int_truediv_mono a b c :
  (a <= b)%Z -> (0 < c)%Z -> fleb (int_truediv a c) (int_truediv b c) = true.
Proof.
  intros H C. unfold fleb, int_truediv. cbn [val of_Q]. apply xle_xleb, rnd_mono.
  apply Qmult_le_compat_r; [now rewrite <- Zle_Qle|].
  apply Qlt_le_weak, Qinv_lt_0_compat, inject_Z_pos, C.
Qed.

(** X6.  For a transcript, added text and keywords of code points up to
    U+00FF, where [str.lower] works one character at a time: text added
    before or after the transcript loses no keyword: what was found is still
    found, nothing new is missing, and the keyword score does not decrease.
    (Beyond U+00FF this fails: a capital sigma that ends the transcript
    stops being final when text follows it.) *)
Theorem X6_more_text_keeps_keywords :
  forall (float_repr : float -> string) (before transcript after : string)
         (keyword_str : cell),
    let r := compute_keyword_score float_repr transcript keyword_str in
    let r' := compute_keyword_score float_repr (before ++ transcript ++ after)
                                    keyword_str in
    (forall kw, In kw (kw_found r) -> In kw (kw_found r')) /\
    (forall kw, In kw (kw_missing r') -> In kw (kw_missing r)) /\
    fleb (kw_score r) (kw_score r') = true.
Proof.
  intros float_repr before transcript after keyword_str r r'.
  unfold r, r', compute_keyword_score. rewrite !match_keywords_of.
  set (keywords := keywords_of float_repr keyword_str). simpl.
  assert (M : forall kw, contains kw (lower transcript) = true ->
                         contains kw (lower (before ++ transcript ++ after)) = true).
  { intros kw H. rewrite !lower_append.
    now apply contains_append_l, contains_append_r. }
  split; [|split].
  - intros kw. rewrite !filter_In. intros [I H]. split; [exact I | now apply M].
  - intros kw. rewrite !filter_In. intros [I H]. split; [exact I|].
    destruct (contains kw (lower transcript)) eqn:C; [|reflexivity].
    now rewrite (M kw C) in H.
  - destruct (Nat.eqb_spec (List.length keywords) 0) as [E|N].
    + vm_compute. reflexivity.
    + apply int_truediv_mono; [|lia].
      apply inj_le. now apply filter_length_mono.
Qed.

(** ** Full and empty keyword scores *)

Lemma inv_small b : (0 < b <= 2 ^ 53)%Z -> (1 # 2 ^ 53) <= 1 / inject_Z b.
Proof.
  intros [P B]. apply Qle_shift_div_l; [now apply inject_Z_pos|].
  assert (H : inject_Z b <= inject_Z (2 ^ 53)) by now rewrite <- Zle_Qle.
  change (inject_Z (2 ^ 53)) with 9007199254740992 in H.
  change (1 # 2 ^ 53) with (1 # 9007199254740992). lra.
Qed.

(** The quotient of two integers [0 <= a <= b] with [b] at most [2^53] is
    1.0 only for [a = b] and 0.0 only for [a = 0]. *)
Lemma int_truediv_extremes a b :
  (0 <= a <= b)%Z -> (0 < b <= 2 ^ 53)%Z ->
  (val (int_truediv a b) = Fin 1 <-> a = b) /\
  (val (int_truediv a b) = Fin 0 <-> a = 0%Z).
Proof.
  intros Ha Hb. pose proof (inject_Z_pos b (proj1 Hb)) as B.
  pose proof (inv_small b Hb) as I.
  unfold int_truediv. cbn [val of_Q]. split; split.
  - intros E. destruct (Z.eq_dec a b) as [|N]; [assumption|]. exfalso.
    assert (L : inject_Z a / inject_Z b <= 1 - (1 # 2 ^ 53)).
    { assert (A : inject_Z a + inject_Z 1 <= inject_Z b).
      { rewrite <- inject_Z_plus, <- Zle_Qle. lia. }
      change (inject_Z 1) with 1 in A.
      apply Qle_shift_div_r; [exact B|].
      change (1 # 2 ^ 53) with (1 # 9007199254740992) in *.
      assert (X : 1 / inject_Z b * inject_Z b == 1) by (field; lra).
      nra. }
    pose proof (rnd_le _ _ rnd_below_1 L) as R. rewrite E in R. simpl in R.
    revert R. clear. unfold Qle. simpl. lia.
  - intros ->. rewrite (rnd_comp (inject_Z b / inject_Z b) 1); [exact rnd_1|].
    field. lra.
  - intros E. destruct (Z.eq_dec a 0) as [|N]; [assumption|]. exfalso.
    assert (L : (1 # 2 ^ 53) <= inject_Z a / inject_Z b).
    { assert (A : 1 <= inject_Z a).
      { change 1 with (inject_Z 1). rewrite <- Zle_Qle. lia. }
      apply Qle_trans with (1 / inject_Z b); [exact I|].
      apply Qmult_le_compat_r; [exact A|]. apply Qlt_le_weak, Qinv_lt_0_compat, B. }
    pose proof (rnd_ge _ _ rnd_2_m53 L) as R. rewrite E in R. simpl in R.
    revert R. clear. unfold Qle. simpl. lia.
  - intros ->. rewrite (rnd_comp (inject_Z 0 / inject_Z b) 0); [exact rnd_0|].
    unfold Qdiv. change (inject_Z 0) with 0. ring.
Qed.

Lemma missing_nil_iff (hit : string -> bool) l :
  filter (fun kw => negb (hit kw)) l = [] <->
  List.length (filter hit l) = List.length l.
Proof.
  induction l as [|k l IH]; simpl; [tauto|].
  pose proof (filter_length_le hit l).
  destruct (hit k); simpl; [rewrite IH; lia|].
  split; [discriminate | lia].
Qed.

Lemma found_nil_iff (hit : string -> bool) l :
  filter hit l = [] <-> List.length (filter hit l) = 0%nat.
Proof. destruct (filter hit l); simpl; split; congruence. Qed.

(** X7.  For a keyword list of at most [2^53] keywords, the score is 1.0
    exactly when no keyword is missing, and it is 0.0 exactly when there are
    keywords and none is found. *)
Theorem X7_full_and_zero_score :
  forall (float_repr : float -> string) (transcript : string) (keyword_str : cell),
    (Z.of_nat (List.length (keywords_of float_repr keyword_str)) <= 2 ^ 53)%Z ->
    let r := compute_keyword_score float_repr transcript keyword_str in
    (val (kw_score r) = Fin 1 <-> kw_missing r = []) /\
    (val (kw_score r) = Fin 0 <->
     keywords_of float_repr keyword_str <> [] /\ kw_found r = []).
Proof.
  intros float_repr transcript keyword_str B r.
  unfold r, compute_keyword_score. rewrite match_keywords_of.
  set (keywords := keywords_of float_repr keyword_str) in *.
  set (hit := fun kw => contains kw (lower transcript)). simpl.
  change (filter (fun kw => negb (contains kw (lower transcript))) keywords)
    with (filter (fun kw => negb (hit kw)) keywords).
  rewrite (missing_nil_iff hit keywords), (found_nil_iff hit keywords).
  pose proof (filter_length_le hit keywords) as L.
  destruct (Nat.eqb_spec (List.length keywords) 0) as [E|N].
  - destruct keywords; [|discriminate]. simpl.
    change (val (lit 1)) with (rnd 1). rewrite rnd_1. split; split; try tauto.
    + intros H. apply fin_neq in H; [contradiction | discriminate].
  - destruct (int_truediv_extremes
                (Z.of_nat (List.length (filter hit keywords)))
                (Z.of_nat (List.length keywords))) as [F Z]; [lia | lia |].
    rewrite F, Z. split; [lia|].
    split; [intros H; split; [now destruct keywords | lia] | intros [_ H]; lia].
Qed.

Lemma X7_full_and_zero_score_witness :
  kw_missing (compute_keyword_score unused_repr "i know python and java"
                                    (CStr "Python, Java")) = [].
Proof.
  refine (proj1 (proj1 (X7_full_and_zero_score unused_repr "i know python and java"
                          (CStr "Python, Java") _)) _).
  - vm_compute. discriminate.
  - vm_compute. reflexivity.
Defined.

(** ** The semantic score *)

Lemma rnd_mono_fin a b x y : rnd a = Fin x -> rnd b = Fin y -> a <= b -> x <= y.
Proof.
  intros Ea Eb H. pose proof (rnd_mono a b H) as M. now rewrite Ea, Eb in M.
Qed.

(** X8.  With an encoder whose similarities for two pairs of sentences are
    [s <= s'], both between -1 and 1, the semantic scores are between 0 and 1
    and in the same order; a similarity of -1 gives the score 0 and a
    similarity of 1 the score 1. *)
Theorem X8_semantic_score :
  forall (float_repr : float -> string) (cosine : string -> string -> float)
         (t t' : string) (d d' : cell) (s s' : Q),
    val (cosine t (py_str float_repr d)) = Fin s ->
    val (cosine t' (py_str float_repr d')) = Fin s' ->
    - (1) <= s -> s <= s' -> s' <= 1 ->
    let x := compute_semantic_score float_repr (Some cosine) t d in
    let x' := compute_semantic_score float_repr (Some cosine) t' d' in
    unit_float x /\ unit_float x' /\ fleb x x' = true /\
    (s == - (1) -> val x = Fin 0) /\ (s' == 1 -> val x' = Fin 1).
Proof.
  intros float_repr cosine t t' d d' s s' E E' L M U x x'.
  unfold x, x', compute_semantic_score.
  destruct (rnd_between 0 2 (s + 1) rnd_0 rnd_2) as (a & Ea & Ra); [lra|].
  destruct (rnd_between 0 2 (s' + 1) rnd_0 rnd_2) as (a' & Ea' & Ra'); [lra|].
  assert (A : val (cosine t (py_str float_repr d) + of_int 1)%py = Fin a).
  { rewrite (val_fadd _ _ s 1 E); [exact Ea | exact rnd_1]. }
  assert (A' : val (cosine t' (py_str float_repr d') + of_int 1)%py = Fin a').
  { rewrite (val_fadd _ _ s' 1 E'); [exact Ea' | exact rnd_1]. }
  assert (Laa : a <= a') by (apply (rnd_mono_fin (s + 1) (s' + 1)); auto; lra).
  assert (H : forall b, 0 <= b <= 2 -> 0 <= b / 2 <= 1).
  { intros b Hb. split; [apply Qle_shift_div_l | apply Qle_shift_div_r]; lra. }
  destruct (rnd_between 0 1 (a / 2) rnd_0 rnd_1 (H a Ra)) as (y & Ey & Ry).
  destruct (rnd_between 0 1 (a' / 2) rnd_0 rnd_1 (H a' Ra')) as (y' & Ey' & Ry').
  assert (V : val ((cosine t (py_str float_repr d) + of_int 1) / of_int 2)%py = rnd (a / 2)).
  { apply (val_fdiv _ _ a 2 A); [exact rnd_2 | lra]. }
  assert (V' : val ((cosine t' (py_str float_repr d') + of_int 1) / of_int 2)%py
               = rnd (a' / 2)).
  { apply (val_fdiv _ _ a' 2 A'); [exact rnd_2 | lra]. }
  split; [exists y; split; [now rewrite V | exact Ry]|].
  split; [exists y'; split; [now rewrite V' | exact Ry']|].
  split; [|split].
  - unfold fleb. rewrite V, V'. apply xle_xleb, rnd_mono.
    apply Qmult_le_compat_r; [exact Laa | discriminate].
  - intros Z. rewrite V.
    assert (Za : a == 0).
    { assert (R : rnd (s + 1) = Fin 0) by (rewrite (rnd_comp (s + 1) 0); [exact rnd_0 | lra]).
      rewrite R in Ea. injection Ea as <-. reflexivity. }
    rewrite (rnd_comp (a / 2) 0); [exact rnd_0|]. rewrite Za. reflexivity.
  - intros Z. rewrite V'.
    assert (Za : a' == 2).
    { assert (R : rnd (s' + 1) = Fin 2) by (rewrite (rnd_comp (s' + 1) 2); [exact rnd_2 | lra]).
      rewrite R in Ea'. injection Ea' as <-. reflexivity. }
    rewrite (rnd_comp (a' / 2) 1); [exact rnd_1|]. rewrite Za. reflexivity.
Qed.

Lemma X8_semantic_score_witness :
  fleb (compute_semantic_score unused_repr
          (Some (fun a b => if String.eqb a b then of_int 1 else lit (1 # 4)))
          "hello" (CStr "world"))
       (compute_semantic_score unused_repr
          (Some (fun a b => if String.eqb a b then of_int 1 else lit (1 # 4)))
          "hello" (CStr "hello")) = true.
Proof.
  refine (proj1 (proj2 (proj2
    (X8_semantic_score unused_repr
       (fun a b => if String.eqb a b then of_int 1 else lit (1 # 4))
       "hello" "hello" (CStr "world") (CStr "hello") (1 # 4) 1 _ _ _ _ _)))).
  - vm_compute. reflexivity.
  - vm_compute. reflexivity.
  - unfold Qle. simpl. lia.
  - unfold Qle. simpl. lia.
  - unfold Qle. simpl. lia.
Defined.

(** ** The per-criterion results *)





(** A float rounded to three decimals: the float nearest to [n / 1000] for
    an integer [n] between [lo] and 1000. *)
Definition thousandths (lo : Z) (x : float) : Prop :=
  exists n, (lo <= n <= 1000)%Z /\ x = of_Q (inject_Z n / 1000).

Lemma py_round_thousandths lo x q :
  val x = Fin q -> inject_Z lo <= q * 1000 -> q <= 1 ->
  thousandths lo (py_round x 3).
Proof.
  intros E L U. exists (rne (q * 1000)). split.
  - split.
    + rewrite <- (rne_Z lo). now apply rne_mono.
    + apply Z.le_trans with (rne (inject_Z 1000)); [|rewrite rne_Z; lia].
      apply rne_mono. change (inject_Z 1000) with 1000. lra.
  - unfold py_round. rewrite E. reflexivity.
Qed.

Lemma unit_thousandths x : unit_float x -> thousandths 0 (py_round x 3).
Proof.
  intros (q & E & R). apply (py_round_thousandths 0 x q E); [|lra].
  change (inject_Z 0) with 0. lra.
Qed.

Lemma thousandths_range lo x :
  (0 <= lo)%Z -> thousandths lo x ->
  fleb (of_Q (inject_Z lo / 1000)) x = true /\ fleb x (lit 1) = true.
Proof.
  intros P (n & [L U] & ->). unfold fleb. cbn [val of_Q lit]. split.
  - apply xle_xleb, rnd_mono. apply Qmult_le_compat_r; [|discriminate].
    now rewrite <- Zle_Qle.
  - apply xle_xleb, rnd_mono. apply Qle_shift_div_r; [reflexivity|].
    change (1 * 1000) with (inject_Z 1000). now rewrite <- Zle_Qle.
Qed.

(** X10.  With an encoder whose similarities lie between -1 and 1 (or with
    none), the four scores reported for a criterion are floats nearest to a
    whole number of thousandths: between 0 and 1 for the keyword score, the
    semantic score and the final score, between 0.4 and 1 for the length
    penalty. *)
Theorem X10_reported_scores :
  forall (float_repr : float -> string) (float_of_str : string -> option float)
         (model : option (string -> string -> float))
         (transcript : string) (rubric_df : dataframe) (res : scoring_result),
    model_bounded model ->
    score_transcript float_repr float_of_str model transcript rubric_df = Ok res ->
    Forall (fun c =>
              thousandths 0 (keyword_score c) /\
              thousandths 0 (semantic_score c) /\
              thousandths 400 (length_penalty c) /\
              thousandths 0 (final_score_0_1 c) /\
              fleb (lit (4 # 10)) (length_penalty c) = true /\
              fleb (lit 0) (final_score_0_1 c) = true /\
              fleb (final_score_0_1 c) (lit 1) = true)
           (per_criterion res).
Proof.
  intros float_repr float_of_str model transcript rubric_df res M.
  rewrite score_transcript_spec. cbv zeta.
  destruct (map_result _ rubric_df) as [scs|e] eqn:E; simpl; [|discriminate].
  intros [= <-]. simpl. apply Forall_map. revert scs E. apply map_result_Forall.
  intros r sc H. pose proof (score_row_final_unit _ _ _ _ _ _ _ M H) as F.
  revert H F. unfold score_row.
  destruct (bound_of float_of_str r ["MinWords"; "Min Words"]) as [mn|];
    simpl; [|discriminate].
  destruct (bound_of float_of_str r ["MaxWords"; "Max Words"]) as [mx|];
    simpl; [|discriminate].
  intros [= <-]. cbn [shown final keyword_score semantic_score length_penalty
                      final_score_0_1]. intros F.
  assert (P : thousandths 400
                (py_round (penalty (compute_length_penalty
                   (Z.of_nat (List.length (split_ws (preprocess_text transcript))))
                   mn mx)) 3)).
  { destruct (penalty_range
                (Z.of_nat (List.length (split_ws (preprocess_text transcript)))) mn mx)
      as (p & Ep & Rp).
    apply (py_round_thousandths 400 _ p Ep); [|lra].
    change (inject_Z 400) with 400. unfold q04 in Rp. lra. }
  pose proof (unit_thousandths _ F) as T.
  split; [apply unit_thousandths, keyword_score_unit|].
  split; [apply unit_thousandths, semantic_unit, M|].
  split; [exact P|]. split; [exact T|].
  split; [exact (proj1 (thousandths_range 400 _ ltac:(lia) P))|].
  exact (thousandths_range 0 _ ltac:(lia) T).
Qed.

Lemma X10_reported_scores_witness :
  match score_transcript unused_repr unused_parse None "I know Python"
          [[("Criterion", CStr "Skills"); ("Keywords", CStr "python, java, sql");
            ("MinWords", CNum (of_int 7))]] with
  | Ok res => Forall (fun c => thousandths 400 (length_penalty c) /\
                               thousandths 0 (final_score_0_1 c))
                     (per_criterion res)
  | Raise _ => False
  end.
Proof.
  destruct (score_transcript _ _ _ _ _) as [res|e] eqn:E.
  - refine (Forall_impl _ _ (X10_reported_scores unused_repr unused_parse None
                               "I know Python" _ res _ E)).
    + intros c H. split; apply H.
    + intros cosine H. discriminate H.
  - vm_compute in E. discriminate E.
Defined.

(** ** When scoring fails *)

(** The cell of a word bound is a string that [float] does not read. *)
Definition unreadable (float_of_str : string -> option float) (v : cell) : Prop :=
  exists s, v = CStr s /\ float_of_str s = None.

Lemma bound_of_is_ok float_of_str r cands :
  is_ok (bound_of float_of_str r cands) = false
  <-> unreadable float_of_str (_get_first_existing r cands).
Proof.
  unfold bound_of, unreadable, py_float.
  destruct (_get_first_existing r cands) as [s|x]; simpl.
  - destruct (float_of_str s) eqn:E; simpl; split.
    + discriminate.
    + intros (s' & [= <-] & H). congruence.
    + intros _. eauto.
    + reflexivity.
  - split; [destruct (negb (isnan x)); discriminate | intros (s & H & _); discriminate].
Qed.

(** X11.  On a table of text and number cells whose rows have distinct
    labels, and with an encoder that returns, scoring fails exactly when,
    in some row, the cell read as minimum or as maximum number of words is
    a string that [float] rejects, and it then raises ValueError.  On such a
    table neither the transcript nor a weight that cannot be read makes it
    fail. *)
Theorem X11_scoring_fails_on_unreadable_bound :
  forall (float_repr : float -> string) (float_of_str : string -> option float)
         (model : option (string -> string -> float))
         (transcript : string) (rubric_df : dataframe),
    distinct_labels rubric_df ->
    (score_transcript float_repr float_of_str model transcript rubric_df
     = Raise ValueError
     <-> Exists (fun r =>
                   unreadable float_of_str
                     (_get_first_existing r ["MinWords"; "Min Words"]) \/
                   unreadable float_of_str
                     (_get_first_existing r ["MaxWords"; "Max Words"]))
                rubric_df).
Proof.
  intros float_repr float_of_str model transcript rubric_df _.
  assert (A : score_transcript float_repr float_of_str model transcript rubric_df
              = Raise ValueError
              <-> forallb (row_ok float_of_str) rubric_df = false).
  { rewrite <- (score_transcript_is_ok float_repr float_of_str model transcript).
    destruct (score_transcript _ _ _ _ _) as [res|[]]; simpl;
      split; (discriminate || reflexivity). }
  rewrite A. clear A. rewrite Exists_exists. split.
  - intros H. induction rubric_df as [|r rows IH]; simpl in H; [discriminate|].
    apply andb_false_iff in H. destruct H as [H|H].
    + exists r. split; [now left|]. unfold row_ok in H.
      apply andb_false_iff in H. rewrite !bound_of_is_ok in H. exact H.
    + destruct (IH H) as (r' & I & U). exists r'. split; [now right | exact U].
  - intros (r & I & U).
    destruct (forallb (row_ok float_of_str) rubric_df) eqn:F; [|reflexivity].
    rewrite forallb_forall in F. specialize (F r I). unfold row_ok in F.
    apply andb_true_iff in F. destruct F as [F1 F2].
    rewrite <- !bound_of_is_ok in U. destruct U as [U|U]; congruence.
Qed.

Lemma X11_scoring_fails_on_unreadable_bound_witness :
  score_transcript unused_repr unused_parse None "I know Python"
    [[("Criterion", CStr "Skills"); ("Weight", CStr "high")];
     [("Criterion", CStr "Length"); ("MinWords", CStr "ten")]]
  = Raise ValueError.
Proof.
  apply X11_scoring_fails_on_unreadable_bound.
  - repeat constructor; simpl; intuition discriminate.
  - apply Exists_cons_tl, Exists_cons_hd. left. exists "ten". split; reflexivity.
Defined.

(** ** A single criterion *)

Lemma weighted_mean_single sc :
  its_weight sc = lit 1 -> weighted_mean [sc] = final sc.
Proof.
  intros W. apply float_ext.
  unfold weighted_mean, total_weight_of, weighted_sum_of. simpl. rewrite W.
  assert (T : (lit 0 + lit 1)%py = lit 1) by (apply float_ext; vm_compute; reflexivity).
  rewrite T. change (lit 1 =? of_int 0)%py with false. cbv iota.
  destruct (val (final sc)) as [a| | |] eqn:E.
  - pose proof (rnd_val _ _ E) as R.
    assert (M : val (final sc * lit 1)%py = Fin a).
    { rewrite (val_fmul (final sc) (lit 1) a 1 E rnd_1).
      rewrite (rnd_comp (a * 1) a); [exact R | ring]. }
    assert (S : val (lit 0 + final sc * lit 1)%py = Fin a).
    { rewrite (val_fadd (lit 0) (final sc * lit 1)%py 0 a rnd_0 M).
      rewrite (rnd_comp (0 + a) a); [exact R | ring]. }
    rewrite (val_fdiv (lit 0 + final sc * lit 1)%py (lit 1) a 1 S rnd_1); [|discriminate].
    rewrite (rnd_comp (a / 1) a); [exact R | field].
  - assert (M : val (final sc * lit 1)%py = PInf).
    { unfold fmul. rewrite E. reflexivity. }
    assert (S : val (lit 0 + final sc * lit 1)%py = PInf).
    { unfold fadd. rewrite M. reflexivity. }
    unfold fdiv. rewrite S. reflexivity.
  - assert (M : val (final sc * lit 1)%py = NInf).
    { unfold fmul. rewrite E. reflexivity. }
    assert (S : val (lit 0 + final sc * lit 1)%py = NInf).
    { unfold fadd. rewrite M. reflexivity. }
    unfold fdiv. rewrite S. reflexivity.
  - assert (M : val (final sc * lit 1)%py = NaN).
    { unfold fmul. rewrite E. reflexivity. }
    assert (S : val (lit 0 + final sc * lit 1)%py = NaN).
    { unfold fadd. rewrite M. reflexivity. }
    unfold fdiv. rewrite S. reflexivity.
Qed.

(** X12.  For a rubric of one criterion of weight 1.0 (so also when the row
    has no weight), the overall score is the final score of the criterion,
    the keyword score and the semantic score in equal parts times the length
    penalty, before it is rounded to three decimals, times 100 and rounded
    to two decimals: the sums and the quotient of the weighted mean change
    nothing. *)
Theorem X12_single_criterion :
  forall (float_repr : float -> string) (float_of_str : string -> option float)
         (model : option (string -> string -> float))
         (transcript : string) (r : row) (res : scoring_result),
    weight_of float_of_str r = lit 1 ->
    score_transcript float_repr float_of_str model transcript [r] = Ok res ->
    exists min_words max_words,
      bound_of float_of_str r ["MinWords"; "Min Words"] = Ok min_words /\
      bound_of float_of_str r ["MaxWords"; "Max Words"] = Ok max_words /\
      let t := preprocess_text transcript in
      let kw := compute_keyword_score float_repr t
                  (_get_first_existing r ["Keywords"; "Keyword"; "Key words"; "KeyWords"]) in
      let semantic := compute_semantic_score float_repr model t
                  (_get_first_existing r
                     ["Description"; "Criteria Description"; "Detail"; "Details"]) in
      let len := compute_length_penalty (word_count res) min_words max_words in
      overall_score res
      = py_round (((lit (1 # 2) * kw_score kw + lit (1 # 2) * semantic)
                   * penalty len) * of_int 100)%py 2.
Proof.
  intros float_repr float_of_str model transcript r res W.
  rewrite score_transcript_spec. cbv zeta. cbn [map_result].
  destruct (score_row _ _ _ _ _ r) as [sc|e] eqn:E; simpl; [|discriminate].
  intros [= <-]. cbn [overall_score word_count].
  rewrite weighted_mean_single
    by (rewrite (score_row_weight _ _ _ _ _ _ _ E); exact W).
  revert E. unfold score_row.
  destruct (bound_of float_of_str r ["MinWords"; "Min Words"]) as [mn|];
    simpl; [|discriminate].
  destruct (bound_of float_of_str r ["MaxWords"; "Max Words"]) as [mx|];
    simpl; [|discriminate].
  intros [= <-]. exists mn, mx. repeat split.
Qed.

Lemma X12_single_criterion_witness :
  match score_transcript unused_repr unused_parse None "I know Python"
          [[("Criterion", CStr "Skills"); ("Keywords", CStr "python, java")]] with
  | Ok res => val (overall_score res) = Fin 50
  | Raise _ => False
  end.
Proof.
  destruct (score_transcript _ _ _ _ _) as [res|e] eqn:E.
  - destruct (X12_single_criterion unused_repr unused_parse None "I know Python"
                [("Criterion", CStr "Skills"); ("Keywords", CStr "python, java")]
                res eq_refl E) as (mn & mx & Hmn & Hmx & H).
    injection Hmn as <-. injection Hmx as <-.
    rewrite H. vm_compute in E. injection E as <-. vm_compute. reflexivity.
  - vm_compute in E. discriminate E.
Defined.

(** ** The length penalty and the word count *)

Lemma xle_fin_l a y : xle (Fin a) y -> (exists b, y = Fin b /\ a <= b) \/ y = PInf.
Proof. destruct y; simpl; intros H; try contradiction; eauto. Qed.

(** [max(0.4, 1 - diff / divisor)] does not increase with [diff]. *)
Lemma clamped_penalty_antitone diff diff' divisor k :
  xle (Fin 0) (val diff) -> xle (val diff) (val diff') ->
  val divisor = Fin k -> 1 <= k ->
  fleb (py_max (lit (4 # 10)) (of_int 1 - diff' / divisor)%py)
       (py_max (lit (4 # 10)) (of_int 1 - diff / divisor)%py) = true.
Proof.
  intros P L K Hk.
  assert (Z : Qeq_bool k 0 = false).
  { destruct (Qeq_bool k 0) eqn:Z; [apply Qeq_bool_iff in Z; lra | reflexivity]. }
  assert (S : Z.sgn (Qnum k) = 1%Z).
  { destruct k as [kn kd]. unfold Qle in Hk. simpl in *. apply Z.sgn_pos. lia. }
  assert (I : 0 <= / k) by (apply Qlt_le_weak, Qinv_lt_0_compat; lra).
  (* the two quotients *)
  assert (Q : xle (Fin 0) (val (diff / divisor)%py) /\
              xle (val (diff / divisor)%py) (val (diff' / divisor)%py)).
  { unfold fdiv. rewrite K.
    destruct (val diff) as [d| | |]; simpl in P; try contradiction;
      destruct (val diff') as [d'| | |]; simpl in L; try contradiction;
      cbv beta iota; rewrite ?Z; cbn [signum]; rewrite ?S; cbn [Z.mul Pos.mul inf_of_sign].
    - split; [apply rnd_ge; [exact rnd_0 | apply Qle_shift_div_l; lra]|].
      apply rnd_mono. now apply Qmult_le_compat_r.
    - assert (G : xle (Fin 0) (val (of_Q (d / k)))).
      { apply rnd_ge; [exact rnd_0|]. apply Qle_shift_div_l; lra. }
      split; [exact G|]. cbn [val of_Q inf] in *.
      destruct (rnd (d / k)); simpl in *; tauto.
    - simpl. tauto. }
  destruct Q as [Q0 Q1].
  (* one minus the quotients *)
  assert (X : xle (val (of_int 1 - diff' / divisor)%py)
                  (val (of_int 1 - diff / divisor)%py) /\
              xle (val (of_int 1 - diff / divisor)%py) (Fin 1)).
  { unfold fsub. change (val (of_int 1)) with (rnd 1). rewrite rnd_1.
    destruct (val (diff / divisor)%py) as [e| | |]; simpl in Q0; try contradiction.
    - assert (G : xle (val (of_Q (1 - e))) (Fin 1)).
      { apply rnd_le; [exact rnd_1 | lra]. }
      split; [|exact G].
      destruct (val (diff' / divisor)%py) as [e'| | |]; simpl in Q1; try contradiction.
      + apply rnd_mono. lra.
      + cbn [val of_Q neg_inf] in *. pose proof (rnd_not_nan (1 - e)).
        destruct (rnd (1 - e)); simpl; tauto.
    - destruct (val (diff' / divisor)%py) as [e'| | |]; simpl in Q1; try contradiction.
      simpl. tauto. }
  destruct X as [X1 X0].
  unfold fleb, py_max, fltb.
  change (val (lit (4 # 10))) with (rnd (4 # 10)). rewrite rnd_04.
  destruct (val (of_int 1 - diff / divisor)%py) as [f| | |] eqn:F;
    simpl in X0; try contradiction;
    destruct (val (of_int 1 - diff' / divisor)%py) as [f'| | |] eqn:F';
    simpl in X1; try contradiction; cbn [xltb].
  - destruct (Qltb q04 f') eqn:L'; destruct (Qltb q04 f) eqn:L0;
      rewrite ?F, ?F'; change (val (lit (4 # 10))) with (rnd (4 # 10));
      rewrite ?rnd_04; cbn [xleb]; apply Qle_bool_iff;
      rewrite ?Qltb_lt, ?Qltb_ge in *; lra.
  - destruct (Qltb q04 f) eqn:L0;
      rewrite ?F; change (val (lit (4 # 10))) with (rnd (4 # 10));
      rewrite ?rnd_04; cbn [xleb]; apply Qle_bool_iff;
      rewrite ?Qltb_lt, ?Qltb_ge in *; lra.
  - change (val (lit (4 # 10))) with (rnd (4 # 10)).
    rewrite ?rnd_04. cbn [xleb]. apply Qle_bool_iff. lra.
Qed.

Lemma too_short_mono w1 w2 mn :
  (w1 <= w2)%Z -> under_min w2 mn = true ->
  fleb (penalty (too_short w1 mn)) (penalty (too_short w2 mn)) = true.
Proof.
  intros H U. pose proof (deficit_nonneg w2 mn U) as D2.
  apply under_min_spec in U. destruct U as (m & E & L).
  assert (F : isfinite mn = true) by (unfold isfinite; now rewrite E).
  destruct (divisor_of_penalty_nonzero mn F) as (k & K & Hk).
  unfold too_short. cbn [penalty].
  apply (clamped_penalty_antitone _ _ _ k); [exact D2 | | exact K | exact Hk].
  assert (Hq : inject_Z w1 <= inject_Z w2) by now rewrite <- Zle_Qle.
  pose proof (rnd_mono _ _ Hq) as M.
  pose proof (rnd_le m (inject_Z w2) (rnd_val mn m E) (Qlt_le_weak _ _ L)) as B.
  unfold fsub. rewrite E. change (val (of_int w1)) with (rnd (inject_Z w1)).
  change (val (of_int w2)) with (rnd (inject_Z w2)).
  pose proof (rnd_not_nan (inject_Z w1)) as N1.
  destruct (rnd (inject_Z w2)) as [a2| | |]; simpl in B; try contradiction.
  - destruct (rnd (inject_Z w1)) as [a1| | |]; simpl in M; try contradiction.
    + apply rnd_mono. lra.
    + cbn [val of_Q inf]. pose proof (rnd_not_nan (m - a2)).
      destruct (rnd (m - a2)); simpl; tauto.
  - destruct (rnd (inject_Z w1)) as [a1| | |]; simpl in M; try contradiction.
    simpl. tauto.
Qed.

Lemma too_long_mono w1 w2 mx :
  (w1 <= w2)%Z -> over_max w1 mx = true ->
  fleb (penalty (too_long w2 mx)) (penalty (too_long w1 mx)) = true.
Proof.
  intros H O. pose proof (excess_nonneg w1 mx O) as D1.
  apply over_max_spec in O. destruct O as (m & E & L).
  assert (F : isfinite mx = true) by (unfold isfinite; now rewrite E).
  destruct (divisor_of_penalty_nonzero mx F) as (k & K & Hk).
  unfold too_long. cbn [penalty].
  apply (clamped_penalty_antitone _ _ _ k); [exact D1 | | exact K | exact Hk].
  assert (Hq : inject_Z w1 <= inject_Z w2) by now rewrite <- Zle_Qle.
  pose proof (rnd_mono _ _ Hq) as M.
  pose proof (rnd_ge m (inject_Z w1) (rnd_val mx m E) (Qlt_le_weak _ _ L)) as B.
  unfold fsub. rewrite E. change (val (of_int w1)) with (rnd (inject_Z w1)).
  change (val (of_int w2)) with (rnd (inject_Z w2)).
  destruct (rnd (inject_Z w1)) as [a1| | |]; simpl in B; try contradiction.
  - destruct (rnd (inject_Z w2)) as [a2| | |]; simpl in M; try contradiction.
    + apply rnd_mono. lra.
    + cbn [val of_Q inf]. pose proof (rnd_not_nan (a1 - m)).
      destruct (rnd (a1 - m)); simpl; tauto.
  - destruct (rnd (inject_Z w2)) as [a2| | |]; simpl in M; try contradiction.
    simpl. tauto.
Qed.

(** X13.  The penalty rises with the word count up to the allowed range and
    falls after it: of two word counts [w1 <= w2], the larger gets a
    penalty at least that of the smaller when it is not over the maximum,
    and at most that of the smaller when the smaller is not under the
    minimum. *)
Theorem X13_length_penalty_monotone :
  forall (w1 w2 : Z) (min_words max_words : float),
    (w1 <= w2)%Z ->
    let p1 := penalty (compute_length_penalty w1 min_words max_words) in
    let p2 := penalty (compute_length_penalty w2 min_words max_words) in
    (over_max w2 max_words = false -> fleb p1 p2 = true) /\
    (under_min w1 min_words = false -> fleb p2 p1 = true).
Proof.
  intros w1 w2 mn mx H p1 p2.
  assert (Hq : inject_Z w1 <= inject_Z w2) by now rewrite <- Zle_Qle.
  split.
  - intros O2. destruct (under_min w2 mn) eqn:U2.
    + assert (U1 : under_min w1 mn = true).
      { apply under_min_spec in U2. destruct U2 as (m & E & L).
        apply under_min_spec. exists m. split; [exact E | lra]. }
      unfold p1, p2. rewrite !compute_length_penalty_cases, U1, U2.
      now apply too_short_mono.
    + replace p2 with (lit 1); [apply penalty_bounds|].
      unfold p2. now rewrite compute_length_penalty_cases, U2, O2.
  - intros U1. destruct (over_max w1 mx) eqn:O1.
    + assert (O2 : over_max w2 mx = true).
      { apply over_max_spec in O1. destruct O1 as (m & E & L).
        apply over_max_spec. exists m. split; [exact E | lra]. }
      assert (U2 : under_min w2 mn = false).
      { destruct (under_min w2 mn) eqn:U2; [|reflexivity].
        apply under_min_spec in U2. destruct U2 as (m & E & L).
        assert (U : under_min w1 mn = true)
          by (apply under_min_spec; exists m; split; [exact E | lra]).
        congruence. }
      unfold p1, p2. rewrite !compute_length_penalty_cases, U1, U2, O1, O2.
      now apply too_long_mono.
    + replace p1 with (lit 1); [apply penalty_bounds|].
      unfold p1. now rewrite compute_length_penalty_cases, U1, O1.
Qed.

Lemma X13_length_penalty_monotone_witness :
  fleb (penalty (compute_length_penalty 12 (of_int 50) (of_int 200)))
       (penalty (compute_length_penalty 30 (of_int 50) (of_int 200))) = true.
Proof.
  refine (proj1 (X13_length_penalty_monotone 12 30 (of_int 50) (of_int 200) _) _).
  - lia.
  - vm_compute. reflexivity.
Defined.

(** ** Whole numbers of words *)

(** X14.  For whole numbers of words up to [2^53] the message names the
    exact gap: under a minimum of [lo] words a transcript of [wc] words is
    told it is too short by [lo - wc] words and, when it is not under the
    minimum, over a maximum of [hi] words that it is too long by [wc - hi]
    words. *)
Theorem X14_message_names_the_gap :
  forall (wc lo hi : Z) (min_words max_words : float),
    (0 <= wc <= 2 ^ 53)%Z -> (0 <= lo <= 2 ^ 53)%Z -> (0 <= hi <= 2 ^ 53)%Z ->
    ((wc < lo)%Z ->
     suggestion (compute_length_penalty wc (of_int lo) max_words)
     = ("Too short by about " ++ str_of_int (lo - wc)
        ++ " words. Try adding a bit more detail.")%string) /\
    (under_min wc min_words = false -> (hi < wc)%Z ->
     suggestion (compute_length_penalty wc min_words (of_int hi))
     = ("Too long by about " ++ str_of_int (wc - hi)
        ++ " words. Try being a bit more concise.")%string).
Proof.
  intros wc lo hi mn mx Hwc Hlo Hhi.
  destruct (of_int_exact wc Hwc) as (w & Ew & Qw).
  destruct (of_int_exact lo Hlo) as (l & El & Ql).
  destruct (of_int_exact hi Hhi) as (h & Eh & Qh).
  split.
  - intros L.
    assert (U : under_min wc (of_int lo) = true).
    { apply under_min_spec. exists l. split; [exact El|]. rewrite Ql.
      now rewrite <- Zlt_Qlt. }
    rewrite compute_length_penalty_cases, U. unfold too_short. cbn [suggestion].
    destruct (rnd_int (lo - wc)) as (d & Ed & Qd); [lia|].
    assert (D : val (of_int lo - of_int wc)%py = Fin d).
    { unfold fsub. rewrite El, Ew. cbn [val of_Q]. rewrite <- Ed.
      apply rnd_comp. rewrite Ql, Qw. unfold Zminus.
      rewrite inject_Z_plus, inject_Z_opp. ring. }
    now rewrite (to_int_exact _ d (lo - wc) D Qd).
  - intros U L.
    assert (O : over_max wc (of_int hi) = true).
    { apply over_max_spec. exists h. split; [exact Eh|]. rewrite Qh.
      now rewrite <- Zlt_Qlt. }
    rewrite compute_length_penalty_cases, U, O. unfold too_long. cbn [suggestion].
    destruct (rnd_int (wc - hi)) as (d & Ed & Qd); [lia|].
    assert (D : val (of_int wc - of_int hi)%py = Fin d).
    { unfold fsub. rewrite Eh, Ew. cbn [val of_Q]. rewrite <- Ed.
      apply rnd_comp. rewrite Qh, Qw. unfold Zminus.
      rewrite inject_Z_plus, inject_Z_opp. ring. }
    now rewrite (to_int_exact _ d (wc - hi) D Qd).
Qed.

Lemma X14_message_names_the_gap_witness :
  suggestion (compute_length_penalty 12 (of_int 50) nan)
  = "Too short by about 38 words. Try adding a bit more detail.".
Proof.
  refine (proj1 (X14_message_names_the_gap 12 50 0 nan nan _ _ _) _); lia.
Defined.

(** ** Loading the rubric *)

(** Lines 57-60 of [load_rubric], on the table that [pandas.read_excel]
    returned (the reading itself is not modelled): every column label is
    stripped, then the rows whose cells are all missing are dropped.  The
    labels are strings, as [read_excel] gives them for a header row of text,
    so that [str(c)] is [c]. *)
Definition strip_columns (r : row) : row :=
  map (fun cv => (strip (fst cv), snd cv)) r.

Definition all_missing (r : row) : bool :=
  forallb (fun cv => negb (notna (snd cv))) r.

Definition load_rubric (read_excel : dataframe) : dataframe :=
  filter (fun r => negb (all_missing r)) (map strip_columns read_excel).

Lemma lookup_In col r v : lookup col r = Some v -> In (col, v) r.
Proof.
  induction r as [|[c w] r IH]; simpl; [discriminate|].
  destruct (String.eqb c col) eqn:E.
  - apply String.eqb_eq in E. intros [= <-]. left. now rewrite E.
  - intros H. right. now apply IH.
Qed.

Lemma In_has_col col v r : In (col, v) r -> has_col col r = true.
Proof.
  unfold has_col. induction r as [|[c w] r IH]; simpl; [contradiction|].
  intros [[= -> ->]|H].
  - now rewrite String.eqb_refl.
  - destruct (String.eqb c col); [reflexivity | now apply IH].
Qed.

Lemma first_cell_named_In cols r v :
  first_cell_named cols r = Some v -> notna v = true /\ exists c, In (c, v) r.
Proof.
  induction cols as [|col cols IH]; simpl; [discriminate|].
  destruct (lookup col r) as [w|] eqn:L; [|exact IH].
  destruct (notna w) eqn:N; [|exact IH].
  intros [= <-]. split; [exact N|]. exists col. now apply lookup_In.
Qed.

Lemma first_cell_In r v :
  first_cell r = Some v -> notna v = true /\ exists c, In (c, v) r.
Proof.
  induction r as [|[c w] r IH]; simpl; [discriminate|].
  destruct (notna w) eqn:N.
  - intros [= <-]. split; [exact N|]. exists c. now left.
  - intros H. destruct (IH H) as (Nv & c' & I). split; [exact Nv|].
    exists c'. now right.
Qed.

Lemma first_cell_none r : first_cell r = None -> all_missing r = true.
Proof.
  induction r as [|[c w] r IH]; simpl; [reflexivity|].
  destruct (notna w); [discriminate | exact IH].
Qed.

(** X15.  In a table that [load_rubric] returns, with labels that are still
    distinct once stripped, every column read from the sheet is found under
    its stripped label, and every row has a cell that is not missing: the
    name of its criterion is the stripped text of such a cell, and the
    fallback to the placeholder name is never taken. *)
Theorem X15_loaded_rubric :
  forall (float_repr : float -> string) (read_excel : dataframe) (r : row),
    In r (load_rubric read_excel) ->
    NoDup (map fst r) ->
    (exists raw, In raw read_excel /\ r = strip_columns raw /\
                 forall c v, In (c, v) raw -> has_col (strip c) r = true) /\
    exists c v, In (c, v) r /\ notna v = true /\
                name_source r = Some v /\
                _get_criterion_name float_repr r = strip (py_str float_repr v).
Proof.
  intros float_repr read_excel r H _. unfold load_rubric in H.
  apply filter_In in H. destruct H as [I A]. apply negb_true_iff in A.
  apply in_map_iff in I. destruct I as (raw & <- & I). split.
  - exists raw. split; [exact I|]. split; [reflexivity|].
    intros c v J. apply (In_has_col _ v). unfold strip_columns.
    apply in_map_iff. exists (c, v). split; [reflexivity | exact J].
  - rewrite criterion_name_spec. unfold name_source.
    destruct (first_cell_named name_columns (strip_columns raw)) as [v|] eqn:F.
    + destruct (first_cell_named_In _ _ _ F) as (N & c & J). exists c, v. auto.
    + destruct (first_cell (strip_columns raw)) as [v|] eqn:G.
      * destruct (first_cell_In _ _ G) as (N & c & J). exists c, v. auto.
      * apply first_cell_none in G. congruence.
Qed.

Lemma X15_loaded_rubric_witness :
  exists c v, In (c, v) [("Criterion", np_nan); ("Notes", CStr " Fluency ")] /\
              notna v = true /\
              name_source [("Criterion", np_nan); ("Notes", CStr " Fluency ")] = Some v /\
              _get_criterion_name unused_repr
                [("Criterion", np_nan); ("Notes", CStr " Fluency ")]
              = strip (py_str unused_repr v).
Proof.
  refine (proj2 (X15_loaded_rubric unused_repr
            [[(" Criterion", np_nan); ("Notes ", CStr " Fluency ")];
             [(" Criterion", np_nan); ("Notes ", np_nan)]]
            [("Criterion", np_nan); ("Notes", CStr " Fluency ")] _ _)).
  - vm_compute. left. reflexivity.
  - repeat constructor; simpl; intuition discriminate.
Defined.

(* ================================================================== *)
(** * Part 7: the rounding model and the binary64 floats of the kernel *)
(* ================================================================== *)

(** The model of Part 2 computes with rationals.  On the operations of the
    examples above it returns what the primitive binary64 floats of Rocq
    return. *)
Module Binary64Check.

Import PrimFloat SpecFloat.
Local Open Scope Q_scope.
Set Warnings "-inexact-float".

(** The value of a primitive float. *)
Definition of_prim (f : PrimFloat.float) : xq :=
  match FloatOps.Prim2SF f with
  | S754_zero _ => Fin 0
  | S754_infinity false => PInf
  | S754_infinity true => NInf
  | S754_nan => NaN
  | S754_finite s m e =>
      Fin (Qred ((if s then - (1) else 1) * inject_Z (Zpos m) * pow2 e))
  end.

Example literal_agrees : of_prim (0.4)%float = val (lit (4 # 10)).
Proof. vm_compute. reflexivity. Qed.

Example sum_agrees :
  of_prim (0.1 + 0.2)%float = val (lit (1 # 10) + lit (2 # 10))%py.
Proof. vm_compute. reflexivity. Qed.

Example quotient_agrees : of_prim (2 / 3)%float = val (int_truediv 2 3).
Proof. vm_compute. reflexivity. Qed.

Example blend_agrees :
  of_prim (0.5 * (2 / 3) + 0.5 * 0.5)%float
  = val (lit (1 # 2) * int_truediv 2 3 + lit (1 # 2) * lit (1 # 2))%py.
Proof. vm_compute. reflexivity. Qed.

Example penalty_agrees :
  of_prim (1 - (50 - 12) / 50)%float
  = val (of_int 1 - (of_int 50 - of_int 12) / of_int 50)%py.
Proof. vm_compute. reflexivity. Qed.

Example tiny_deficit_agrees :
  of_prim (1 - (1e-17 - 0) / 1)%float
  = val (of_int 1 - (lit (1 # 10 ^ 17) - of_int 0) / of_int 1)%py.
Proof. vm_compute. reflexivity. Qed.

Example overflow_agrees :
  of_prim (1e308 + 1e308)%float
  = val (lit (inject_Z (10 ^ 308)) + lit (inject_Z (10 ^ 308)))%py.
Proof. vm_compute. reflexivity. Qed.

Example underflow_agrees :
  of_prim (5e-324 / 2)%float = val (lit (5 # 10 ^ 324) / of_int 2)%py.
Proof. vm_compute. reflexivity. Qed.

End Binary64Check.
